(** * The notification pipeline of notify/notify.go

    A shallow embedding of the stages of [notify.go] (package [notify]):
    the context carriers, [RoutingStage], [MultiStage], [FanoutStage],
    [MuteStage], [TimeMuteStage], [TimeActiveStage], [DedupStage] and
    [RetryStage], followed by the properties of these stages.

    Conventions of the embedding.
    - A Go slice is a Rocq list; the nil slice and the empty slice are both
      [[]] (the code only ever takes [len] of them or ranges over them).
    - [*types.Alert] is an address into a heap of alerts, so the write to
      [a.SentCount] in [DedupStage.Exec] is seen through every alias.
    - Everything a stage reaches outside its arguments (the Redis server
      behind [rdb], the alert objects, the wall clock, the logger's output,
      the notifier and the cancellation of the context) is one [World] value
      that is passed through every call.
    - A stage that does not return is [None].
    - The Prometheus metrics and [Integration.Report] are write-only in this
      file and are left out. *)

From Stdlib Require Import ZArith Ascii String List Lia DecimalString.
From stdpp Require Import base decidable countable gmap strings list pretty sorting.

Open Scope string_scope.
Open Scope list_scope.
Open Scope Z_scope.

(** ** Base types *)

(** [time.Time] as an instant and [time.Duration] as a signed count. *)
Abbreviation Time := Z (only parsing).
Abbreviation Duration := Z (only parsing).

(** Go [error] values.  [New] is [errors.New]/[errors.Errorf] (and any error
    made elsewhere), [Wrap] is [errors.Wrapf cause msg] and [Multi] is a
    [*types.MultiError]. *)
#[warnings="-register-all"]
Inductive Error : Type :=
| New (msg : string)
| Wrap (cause : Error) (msg : string)
| Multi (errs : list Error).

(** [err.Error()]: pkg/errors prints a wrapped error as [msg: cause]. *)
Fixpoint join_with (sep : string) (l : list string) : string :=
  match l with
  | [] => EmptyString
  | [s] => s
  | s :: l' => s +:+ sep +:+ join_with sep l'
  end.

Fixpoint Error_string (e : Error) : string :=
  match e with
  | New msg => msg
  | Wrap cause msg => msg +:+ ": " +:+ Error_string cause
  | Multi errs => join_with "; " (List.map Error_string errs)
  end.

(** [errors.Cause]: the innermost error of a chain of wraps. *)
Fixpoint Cause (e : Error) : Error :=
  match e with
  | Wrap cause _ => Cause cause
  | _ => e
  end.

(** What the go-kit logger has been handed. *)
Inductive Level := LvlDebug | LvlInfo | LvlWarn | LvlError.
Record LogLine := { lvl : Level; msg : string }.

(** ** Package [types] *)

Module types.

(** Modelled from the spec: [types.Alert] is declared in package [types],
    whose source is not part of this development.  The spec lists the
    attributes read here: [Labels], [EndsAt], [Stage], [RuleUID] and the
    mutable [SentCount]. *)
Record Alert := {
  Labels : gmap string string;
  EndsAt : Time;
  Stage : string;
  RuleUID : string;
  SentCount : Z;
}.

Inductive AlertStatus := AlertFiring | AlertResolved.

(** Modelled from the spec: [Resolved] and [Status] of [types.Alert], at the
    instant [ts] that [time.Now()] reads; the spec has "Status() returning
    one of {firing, resolved} (resolved iff EndsAt is in the past)". *)
Definition ResolvedAt (a : Alert) (ts : Time) : bool := EndsAt a <? ts.

Definition StatusAt (a : Alert) (ts : Time) : AlertStatus :=
  if ResolvedAt a ts then AlertResolved else AlertFiring.

(** The assignment [a.SentCount = count]. *)
Definition set_SentCount (count : Z) (a : Alert) : Alert :=
  {| Labels := Labels a; EndsAt := EndsAt a; Stage := Stage a;
     RuleUID := RuleUID a; SentCount := count |}.

(** Modelled from the spec: [types.MultiError] is declared in package
    [types], whose source is not part of this development; the spec has it
    aggregate "any returned errors into a multi-error".  [Add] appends,
    [Len] counts. *)
Definition MultiError := list Error.
Definition MultiError_Add (me : MultiError) (err : Error) : MultiError :=
  me ++ [err].
Definition MultiError_Len (me : MultiError) : nat := length me.

End types.

(** [*types.Alert]: an address; the heap gives the object behind it. *)
Definition AlertPtr := nat.
Definition Heap := AlertPtr -> types.Alert.

(** The write [*a = x]. *)
Definition store (h : Heap) (a : AlertPtr) (x : types.Alert) : Heap :=
  fun p => if Nat.eqb p a then x else h p.

(** ** Context carriers *)

Inductive notifyKey :=
| keyReceiverName
| keyRepeatInterval
| keyGroupLabels
| keyGroupKey
| keyFiringAlerts
| keyResolvedAlerts
| keyNow
| keyMuteTimeIntervals
| keyActiveTimeIntervals
| keyRuleUID.

#[global] Instance notifyKey_eq_dec : EqDecision notifyKey.
Proof. solve_decision. Defined.

(** The [iota] numbering of the constants. *)
Definition notifyKey_iota (k : notifyKey) : nat :=
  match k with
  | keyReceiverName => 0
  | keyRepeatInterval => 1
  | keyGroupLabels => 2
  | keyGroupKey => 3
  | keyFiringAlerts => 4
  | keyResolvedAlerts => 5
  | keyNow => 6
  | keyMuteTimeIntervals => 7
  | keyActiveTimeIntervals => 8
  | keyRuleUID => 9
  end%nat.

Definition notifyKey_of_iota (n : nat) : option notifyKey :=
  match n with
  | 0 => Some keyReceiverName
  | 1 => Some keyRepeatInterval
  | 2 => Some keyGroupLabels
  | 3 => Some keyGroupKey
  | 4 => Some keyFiringAlerts
  | 5 => Some keyResolvedAlerts
  | 6 => Some keyNow
  | 7 => Some keyMuteTimeIntervals
  | 8 => Some keyActiveTimeIntervals
  | 9 => Some keyRuleUID
  | _ => None
  end%nat.

#[global] Instance notifyKey_countable : Countable notifyKey.
Proof.
  apply (inj_countable notifyKey_iota notifyKey_of_iota).
  intros []; reflexivity.
Defined.

(** The dynamic value kept under a key: the [interface{}] of
    [context.WithValue] with the type it was stored at.  A nil [[]uint64]
    stored in the context is still a [[]uint64], so it is [VHashes []]. *)
Inductive Value :=
| VString (s : string)
| VDuration (d : Duration)
| VLabelSet (ls : gmap string string)
| VHashes (hs : list N)
| VTime (t : Time)
| VNames (ns : list string).

(** The values of a [context.Context]; the most recent [WithValue] for a key
    shadows the older ones.  Its cancellation is part of the [World]. *)
Abbreviation Context := (gmap notifyKey Value).

Definition WithRuleUID (ctx : Context) (uid : string) : Context :=
  <[keyRuleUID := VString uid]> ctx.
Definition WithReceiverName (ctx : Context) (rcv : string) : Context :=
  <[keyReceiverName := VString rcv]> ctx.
Definition WithGroupKey (ctx : Context) (s : string) : Context :=
  <[keyGroupKey := VString s]> ctx.
Definition WithFiringAlerts (ctx : Context) (alerts : list N) : Context :=
  <[keyFiringAlerts := VHashes alerts]> ctx.
Definition WithResolvedAlerts (ctx : Context) (alerts : list N) : Context :=
  <[keyResolvedAlerts := VHashes alerts]> ctx.
Definition WithGroupLabels (ctx : Context) (lset : gmap string string) : Context :=
  <[keyGroupLabels := VLabelSet lset]> ctx.
Definition WithNow (ctx : Context) (t : Time) : Context :=
  <[keyNow := VTime t]> ctx.
Definition WithRepeatInterval (ctx : Context) (t : Duration) : Context :=
  <[keyRepeatInterval := VDuration t]> ctx.
Definition WithMuteTimeIntervals (ctx : Context) (mt : list string) : Context :=
  <[keyMuteTimeIntervals := VNames mt]> ctx.
Definition WithActiveTimeIntervals (ctx : Context) (at_ : list string) : Context :=
  <[keyActiveTimeIntervals := VNames at_]> ctx.

(** The accessors: [ctx.Value(key).(T)], [None] when the second result of
    the type assertion is false. *)
Definition RepeatInterval (ctx : Context) : option Duration :=
  match ctx !! keyRepeatInterval with Some (VDuration v) => Some v | _ => None end.
Definition RuleUID (ctx : Context) : option string :=
  match ctx !! keyRuleUID with Some (VString v) => Some v | _ => None end.
Definition ReceiverName (ctx : Context) : option string :=
  match ctx !! keyReceiverName with Some (VString v) => Some v | _ => None end.
Definition GroupKey (ctx : Context) : option string :=
  match ctx !! keyGroupKey with Some (VString v) => Some v | _ => None end.
Definition GroupLabels (ctx : Context) : option (gmap string string) :=
  match ctx !! keyGroupLabels with Some (VLabelSet v) => Some v | _ => None end.
Definition Now (ctx : Context) : option Time :=
  match ctx !! keyNow with Some (VTime v) => Some v | _ => None end.
Definition FiringAlerts (ctx : Context) : option (list N) :=
  match ctx !! keyFiringAlerts with Some (VHashes v) => Some v | _ => None end.
Definition ResolvedAlerts (ctx : Context) : option (list N) :=
  match ctx !! keyResolvedAlerts with Some (VHashes v) => Some v | _ => None end.
Definition MuteTimeIntervalNames (ctx : Context) : option (list string) :=
  match ctx !! keyMuteTimeIntervals with Some (VNames v) => Some v | _ => None end.
Definition ActiveTimeIntervalNames (ctx : Context) : option (list string) :=
  match ctx !! keyActiveTimeIntervals with Some (VNames v) => Some v | _ => None end.

(** ** The world around a stage *)

(** One round of the [for] loop of [RetryStage.exec], as the environment
    plays it: whether [ctx.Done()] is closed at the three places where the
    loop can see it, which case the second [select] takes, and what
    [Notify] answers if it is called. *)
Record Round := {
  done_at_check : bool;              (* closed when the first select runs *)
  done_at_wait : bool;               (* closed when the second select wakes up *)
  tick_wins : bool;                  (* the second select takes [tick.C] although
                                        [ctx.Done()] is ready too *)
  notify_ret : bool * option Error;  (* the (retry, err) of [Notify] *)
  done_at_return : bool;             (* [ctx.Err() != nil] once [Notify] is back *)
}.

(** What the loop does that an observer can see, in order. *)
Inductive Event :=
| EvTick                                      (* received from [tick.C] *)
| EvNotify (name : string) (sent : list AlertPtr).  (* called [Notify] *)

Record World (R : Type) := {
  rdb : R;                 (* the Redis behind the stage's client *)
  heap : Heap;             (* the alert objects *)
  clock : Time;            (* what [time.Now()] reads *)
  logs : list LogLine;     (* what the logger was handed, oldest first *)
  ctxErr : Error;          (* what [ctx.Err()] is once the context is done *)
  rounds : list Round;     (* the rounds of the retry loops still to run *)
  trace : list Event;      (* the events so far, oldest first *)
}.
Arguments rdb {R} _.
Arguments heap {R} _.
Arguments clock {R} _.
Arguments logs {R} _.
Arguments ctxErr {R} _.
Arguments rounds {R} _.
Arguments trace {R} _.

Definition set_rdb {R} (r : R) (w : World R) : World R :=
  {| rdb := r; heap := heap w; clock := clock w; logs := logs w;
     ctxErr := ctxErr w; rounds := rounds w; trace := trace w |}.
Definition set_heap {R} (h : Heap) (w : World R) : World R :=
  {| rdb := rdb w; heap := h; clock := clock w; logs := logs w;
     ctxErr := ctxErr w; rounds := rounds w; trace := trace w |}.
Definition set_rounds {R} (rds : list Round) (w : World R) : World R :=
  {| rdb := rdb w; heap := heap w; clock := clock w; logs := logs w;
     ctxErr := ctxErr w; rounds := rds; trace := trace w |}.
Definition Log {R} (l : Level) (m : string) (w : World R) : World R :=
  {| rdb := rdb w; heap := heap w; clock := clock w;
     logs := logs w ++ [{| lvl := l; msg := m |}];
     ctxErr := ctxErr w; rounds := rounds w; trace := trace w |}.
Definition emit {R} (e : Event) (w : World R) : World R :=
  {| rdb := rdb w; heap := heap w; clock := clock w; logs := logs w;
     ctxErr := ctxErr w; rounds := rounds w; trace := trace w ++ [e] |}.

(** [a.Resolved()] and [a.Status()] read the clock of the world. *)
Definition Resolved {R} (w : World R) (a : AlertPtr) : bool :=
  types.ResolvedAt (heap w a) (clock w).
Definition Status {R} (w : World R) (a : AlertPtr) : types.AlertStatus :=
  types.StatusAt (heap w a) (clock w).

(** ** Stages *)

(** The three results of [Exec]. *)
Definition StageResult : Type := Context * list AlertPtr * option Error.

(** A [Stage]: its [Exec], the logger being the [logs] of the world.  This
    is also [StageFunc]. *)
Definition Stage (R : Type) : Type :=
  Context -> list AlertPtr -> World R -> option (World R * StageResult).

Section Composition.
Context {R : Type}.

(** [RoutingStage.Exec] *)
Definition RoutingStage_Exec (rs : gmap string (Stage R)) : Stage R :=
  fun ctx alerts w =>
    match ReceiverName ctx with
    | None => Some (w, (ctx, [], Some (New "receiver missing")))
    | Some receiver =>
        match rs !! receiver with
        | None =>
            let group := default EmptyString (GroupKey ctx) in
            Some (w, (ctx, [],
                      Some (New ("stage for receiver [" +:+ receiver +:+
                                 "] group [" +:+ group +:+ "] missing"))))
        | Some s => s ctx alerts w
        end
    end.

(** [MultiStage.Exec] *)
Fixpoint MultiStage_Exec (ms : list (Stage R)) : Stage R :=
  fun ctx alerts w =>
    match ms with
    | [] => Some (w, (ctx, alerts, None))
    | s :: ms' =>
        if (length alerts =? 0)%nat then Some (w, (ctx, [], None))
        else
          match s ctx alerts w with
          | None => None
          | Some (w', (ctx', alerts', err)) =>
              match err with
              | Some e => Some (w', (ctx', [], Some e))
              | None => MultiStage_Exec ms' ctx' alerts' w'
              end
          end
    end.

(** The goroutines of [FanoutStage.Exec], run to completion one after the
    other in the order of the slice; [me] collects the errors.  The alerts
    and the context that [Exec] returns do not depend on the schedule:
    neither is assigned in the goroutines. *)
Fixpoint fanout_run (fs : list (Stage R)) (ctx : Context)
         (alerts : list AlertPtr) (me : types.MultiError) (w : World R)
  : option (World R * types.MultiError) :=
  match fs with
  | [] => Some (w, me)
  | s :: fs' =>
      match s ctx alerts w with
      | None => None
      | Some (w', (_, _, err)) =>
          match err with
          | Some e => fanout_run fs' ctx alerts (types.MultiError_Add me e) w'
          | None => fanout_run fs' ctx alerts me w'
          end
      end
  end.

(** [FanoutStage.Exec]; [as_] is the local [as], which is declared and
    never assigned. *)
Definition FanoutStage_Exec (fs : list (Stage R)) : Stage R :=
  fun ctx alerts w =>
    let as_ : list AlertPtr := [] in
    match fanout_run fs ctx alerts [] w with
    | None => None
    | Some (w', me) =>
        if (0 <? types.MultiError_Len me)%nat
        then Some (w', (ctx, as_, Some (Multi me)))
        else Some (w', (ctx, as_, None))
    end.

(** [MuteStage.Exec]; the muter is a predicate of the labels. *)
Definition MuteStage_Exec (muter : gmap string string -> bool) : Stage R :=
  fun ctx alerts w =>
    let filtered :=
      List.filter (fun a => negb (muter (types.Labels (heap w a)))) alerts in
    Some (w, (ctx, filtered, None)).

End Composition.

(** ** Time intervals *)

(** [timeinterval.TimeInterval] is declared in package [timeinterval],
    whose source is not part of this development; the stages only call
    [ContainsTime]. *)
Class TimeIntervalOps (TI : Type) := ContainsTime : TI -> Time -> bool.

(** [now.UTC()] is the same instant. *)
Definition UTC (t : Time) : Time := t.

Section TimeStages.
Context {R : Type} {TI : Type} `{!TimeIntervalOps TI}.

Record timeStage := { Times : gmap string (list TI) }.

(** [inTimeIntervals] *)
Fixpoint inTimeIntervals (now : Time) (intervals : gmap string (list TI))
         (intervalNames : list string) : bool * option Error :=
  match intervalNames with
  | [] => (false, None)
  | name :: rest =>
      match intervals !! name with
      | None =>
          (false, Some (New ("time interval " +:+ name +:+
                             " doesn't exist in config")))
      | Some interval =>
          if existsb (fun ti => ContainsTime ti (UTC now)) interval
          then (true, None)
          else inTimeIntervals now intervals rest
      end
  end.

(** [TimeMuteStage.Exec] *)
Definition TimeMuteStage_Exec (tms : timeStage) : Stage R :=
  fun ctx alerts w =>
    match MuteTimeIntervalNames ctx with
    | None => Some (w, (ctx, alerts, None))
    | Some muteTimeIntervalNames =>
        match Now ctx with
        | None => Some (w, (ctx, alerts, Some (New "missing now timestamp")))
        | Some now =>
            match inTimeIntervals now (Times tms) muteTimeIntervalNames with
            | (_, Some err) => Some (w, (ctx, alerts, Some err))
            | (muted, None) =>
                if muted
                then Some (Log LvlDebug "Notifications not sent, route is within mute time" w,
                           (ctx, [], None))
                else Some (w, (ctx, alerts, None))
            end
        end
    end.

(** [TimeActiveStage.Exec] *)
Definition TimeActiveStage_Exec (tas : timeStage) : Stage R :=
  fun ctx alerts w =>
    match ActiveTimeIntervalNames ctx with
    | None => Some (w, (ctx, alerts, None))
    | Some activeTimeIntervalNames =>
        if (length activeTimeIntervalNames =? 0)%nat
        then Some (w, (ctx, alerts, None))
        else
          match Now ctx with
          | None => Some (w, (ctx, alerts, Some (New "missing now timestamp")))
          | Some now =>
              match inTimeIntervals now (Times tas) activeTimeIntervalNames with
              | (_, Some err) => Some (w, (ctx, alerts, Some err))
              | (active, None) =>
                  if negb active
                  then Some (Log LvlDebug "Notifications not sent, route is not within active time" w,
                             (ctx, [], None))
                  else Some (w, (ctx, alerts, None))
              end
          end
    end.

End TimeStages.
Arguments timeStage TI : clear implicits.

(** ** Alert fingerprinting *)

(** [xxhash.Sum64], from a library outside the repository. *)
Class XXHash := Sum64 : string -> N.

(** The order of [sort.Sort] on [model.LabelNames]: [l[i] < l[j]] on the
    bytes of the names. *)
Definition LabelNames_le (a b : string) : Prop := String.leb a b = true.

#[global] Instance LabelNames_le_dec a b : Decision (LabelNames_le a b).
Proof. unfold LabelNames_le. apply _. Defined.

(** The byte [0xff]. *)
Definition sep : string :=
  String (Ascii.Ascii true true true true true true true true) EmptyString.

(** [hashAlert]; the pooled buffer [b] is a string of bytes. *)
Definition hashAlert `{!XXHash} (a : types.Alert) : N :=
  let names := merge_sort LabelNames_le (map fst (map_to_list (types.Labels a))) in
  let b :=
    fold_left
      (fun b ln => b +:+ ln +:+ sep +:+ default EmptyString (types.Labels a !! ln) +:+ sep)
      names EmptyString in
  Sum64 b.

(** ** The Redis client *)

Module nflogpb.
(** [nflogpb.Receiver]; [Idx] is a [uint32]. *)
Record Receiver := {
  GroupName : string;
  Integration : string;
  Idx : N;
}.
End nflogpb.

Module redis.

(** A command's [(value, error)] pair: [Ok v] is [(v, nil)]. *)
Inductive Reply (A : Type) :=
| Ok (v : A)
| Err (e : Error).
Arguments Ok {A} v.
Arguments Err {A} e.

(** [redis.Nil], the error of a [Get] on a key that does not exist. *)
Definition Nil : Error := New "redis: nil".

(** The commands of [redis.Cmdable] that [DedupStage] issues, each with its
    [.Result()].  The server is a value [R]; a command returns the server
    after it. *)
Class Cmdable (R : Type) := {
  Exists : R -> string -> R * Reply Z;
  Get : R -> string -> R * Reply string;
  Del : R -> list string -> R * Reply Z;
  SetNX : R -> string -> string -> Duration -> R * Reply bool;
  Incr : R -> string -> R * Reply Z;
}.

(** [strconv.ParseInt(s, 10, 64)]: an optional sign, then digits, within
    the range of [int64]. *)
Definition ParseInt (s : string) : option Z :=
  let digits :=
    match s with
    | String "+"%char s' =>
        match s' with
        | String "-"%char _ | String "+"%char _ => EmptyString
        | _ => s'
        end
    | _ => s
    end in
  match NilZero.int_of_string digits with
  | Some d =>
      let n := Z.of_int d in
      if (- 2 ^ 63 <=? n) && (n <? 2 ^ 63) then Some n else None
  | None => None
  end.

(** [Get(ctx, key).Int64()] *)
Definition GetInt64 {R} `{!Cmdable R} (r : R) (key : string) : R * Reply Z :=
  match Get r key with
  | (r', Ok s) =>
      match ParseInt s with
      | Some n => (r', Ok n)
      | None => (r', Err (New ("strconv.ParseInt: parsing " +:+ s +:+ ": invalid syntax")))
      end
  | (r', Err e) => (r', Err e)
  end.

End redis.

(** ** DedupStage *)

Definition AlertSentPrefix : string := "alert-sent-".

(** [receiverKey] *)
Definition receiverKey (r : nflogpb.Receiver) : string :=
  nflogpb.GroupName r +:+ ":" +:+ nflogpb.Integration r +:+ ":" +:+
  pretty (nflogpb.Idx r).

(** [stateKey] *)
Definition stateKey (k : string) (r : nflogpb.Receiver) (hash : N) : string :=
  k +:+ ":" +:+ receiverKey r +:+ ":" +:+ pretty hash.

(** [DedupStage]: the fields that [Exec] reads.  Its [rdb] is the [rdb] of
    the world; [rs] and [now] are not read by [Exec]. *)
Record DedupStage := {
  recv : nflogpb.Receiver;
  hash : types.Alert -> N;
}.

(** [NewDedupStage] *)
Definition NewDedupStage `{!XXHash} (recv : nflogpb.Receiver) : DedupStage :=
  {| recv := recv; hash := hashAlert |}.

(** The variables of [DedupStage.Exec] that its loop updates. *)
Record DedupVars (R : Type) := {
  dv_ctx : Context;
  firing : list N;
  resolved : list N;
  needsUpdateAlerts : list AlertPtr;
  dv_world : World R;
}.
Arguments dv_ctx {R} _.
Arguments firing {R} _.
Arguments resolved {R} _.
Arguments needsUpdateAlerts {R} _.
Arguments dv_world {R} _.

Section Dedup.
Context {R : Type} `{!redis.Cmdable R}.

(** The [if a.Resolved()] branch of the loop body, up to the end of the
    turn: the [continue] of the error case skips [WithRuleUID]. *)
Definition dedup_resolved (sKey : string) (h : N) (a : AlertPtr)
           (v : DedupVars R) : DedupVars R :=
  let w := dv_world v in
  let resolved' := resolved v ++ [h] in
  match redis.Exists (rdb w) sKey with
  | (r1, redis.Err err) =>
      {| dv_ctx := dv_ctx v; firing := firing v; resolved := resolved';
         needsUpdateAlerts := needsUpdateAlerts v;
         dv_world := Log LvlError "Exist stateKey from redis failed" (set_rdb r1 w) |}
  | (r1, redis.Ok exist') =>
      if exist' =? 1 then
        let '(r2, got) := redis.GetInt64 r1 (AlertSentPrefix +:+ sKey) in
        let w2 :=
          match got with
          | redis.Ok count =>
              set_heap (store (heap w) a (types.set_SentCount count (heap w a)))
                       (set_rdb r2 w)
          | redis.Err _ => set_rdb r2 w
          end in
        {| dv_ctx := WithRuleUID (dv_ctx v) (types.RuleUID (heap w2 a));
           firing := firing v; resolved := resolved';
           needsUpdateAlerts := needsUpdateAlerts v ++ [a];
           dv_world := w2 |}
      else
        {| dv_ctx := WithRuleUID (dv_ctx v) (types.RuleUID (heap w a));
           firing := firing v; resolved := resolved';
           needsUpdateAlerts := needsUpdateAlerts v;
           dv_world := set_rdb r1 w |}
  end.

(** The start of the [else] branch: the stage read back from Redis and the
    [Del] of a key that holds another stage. *)
Definition dedup_stage_check (sKey : string) (a : AlertPtr) (w : World R)
  : string * World R :=
  let '(r1, got) := redis.Get (rdb w) sKey in
  let '(stage, w1) :=
    match got with
    | redis.Ok s => (s, set_rdb r1 w)
    | redis.Err err =>
        (types.Stage (heap w a),
         Log LvlError "Get stage from redis failed" (set_rdb r1 w))
    end in
  if negb (String.eqb stage EmptyString) && negb (String.eqb stage (types.Stage (heap w a)))
  then (stage, set_rdb (fst (redis.Del (rdb w1) [sKey])) w1)
  else (stage, w1).

(** The [else] branch of the loop body, up to the end of the turn. *)
Definition dedup_firing (sKey : string) (repeatInterval : Duration) (h : N)
           (a : AlertPtr) (v : DedupVars R) : DedupVars R :=
  let '(stage, w1) := dedup_stage_check sKey a (dv_world v) in
  match redis.SetNX (rdb w1) sKey (types.Stage (heap w1 a)) repeatInterval with
  | (r2, redis.Err err) =>
      {| dv_ctx := dv_ctx v; firing := firing v; resolved := resolved v;
         needsUpdateAlerts := needsUpdateAlerts v;
         dv_world := Log LvlError "Set stateKey to redis failed" (set_rdb r2 w1) |}
  | (r2, redis.Ok needsUpdate) =>
      if needsUpdate then
        let '(r3, got) := redis.Incr r2 (AlertSentPrefix +:+ sKey) in
        let w3 :=
          match got with
          | redis.Ok count =>
              set_heap (store (heap w1) a (types.set_SentCount count (heap w1 a)))
                       (set_rdb r3 w1)
          | redis.Err _ => set_rdb r3 w1
          end in
        {| dv_ctx := WithRuleUID (dv_ctx v) (types.RuleUID (heap w3 a));
           firing := firing v ++ [h]; resolved := resolved v;
           needsUpdateAlerts := needsUpdateAlerts v ++ [a];
           dv_world := w3 |}
      else
        {| dv_ctx := WithRuleUID (dv_ctx v) (types.RuleUID (heap w1 a));
           firing := firing v; resolved := resolved v;
           needsUpdateAlerts := needsUpdateAlerts v;
           dv_world := set_rdb r2 w1 |}
  end.

(** One turn of [for _, a := range alerts]. *)
Definition dedup_body (n : DedupStage) (gkey : string)
           (repeatInterval : Duration) (v : DedupVars R) (a : AlertPtr)
  : DedupVars R :=
  let h := hash n (heap (dv_world v) a) in
  let sKey := stateKey gkey (recv n) h in
  if Resolved (dv_world v) a
  then dedup_resolved sKey h a v
  else dedup_firing sKey repeatInterval h a v.

Fixpoint dedup_loop (n : DedupStage) (gkey : string)
         (repeatInterval : Duration) (alerts : list AlertPtr)
         (v : DedupVars R) : DedupVars R :=
  match alerts with
  | [] => v
  | a :: rest =>
      dedup_loop n gkey repeatInterval rest (dedup_body n gkey repeatInterval v a)
  end.

(** The variables as the loop starts. *)
Definition dedup_start (ctx : Context) (w : World R) : DedupVars R :=
  {| dv_ctx := ctx; firing := []; resolved := [];
     needsUpdateAlerts := []; dv_world := w |}.

(** [DedupStage.Exec] *)
Definition DedupStage_Exec (n : DedupStage) : Stage R :=
  fun ctx alerts w =>
    match GroupKey ctx with
    | None => Some (w, (ctx, [], Some (New "group key missing")))
    | Some gkey =>
        match RepeatInterval ctx with
        | None => Some (w, (ctx, [], Some (New "repeat interval missing")))
        | Some repeatInterval =>
            let v := dedup_loop n gkey repeatInterval alerts (dedup_start ctx w) in
            let ctx1 := WithFiringAlerts (dv_ctx v) (firing v) in
            let ctx2 := WithResolvedAlerts ctx1 (resolved v) in
            Some (dv_world v, (ctx2, needsUpdateAlerts v, None))
        end
    end.

End Dedup.

(** ** RetryStage *)

(** [Integration]: the fields read here.  What its [notifier] answers is in
    the [rounds] of the world. *)
Record Integration := {
  rs : bool;
  name : string;
  idx : Z;
}.

Definition SendResolved (i : Integration) : bool := rs i.
Definition Name (i : Integration) : string := name i.
Definition Index (i : Integration) : Z := idx i.

(** [Integration.String] *)
Definition Integration_String (i : Integration) : string :=
  name i +:+ "[" +:+ pretty (idx i) +:+ "]".

Record RetryStage := {
  integration : Integration;
  groupName : string;
}.

(** [NewRetryStage] *)
Definition NewRetryStage (i : Integration) (groupName : string) : RetryStage :=
  {| integration := i; groupName := groupName |}.

(** The two [errors.Wrapf] of the loop. *)
Definition canceled (r : RetryStage) (iErr : Error) (i : Z) : Error :=
  Wrap iErr (groupName r +:+ "/" +:+ Integration_String (integration r) +:+
             ": notify retry canceled after " +:+ pretty i +:+ " attempts").

Definition unrecoverable (r : RetryStage) (err : Error) (i : Z) : Error :=
  Wrap err (groupName r +:+ "/" +:+ Integration_String (integration r) +:+
            ": notify retry canceled due to unrecoverable error after " +:+
            pretty i +:+ " attempts").

(** What the code before the loop decides: to return at once, or the alerts
    to send. *)
Inductive PreFilter :=
| Return (res : StageResult)
| Send (sent : list AlertPtr).

Section Retry.
Context {R : Type}.

(** [RetryStage.exec] up to [b := backoff.NewExponentialBackOff()]. *)
Definition prefilter (r : RetryStage) (ctx : Context)
           (alerts : list AlertPtr) (w : World R) : PreFilter :=
  if negb (SendResolved (integration r)) then
    match FiringAlerts ctx with
    | None => Return (ctx, [], Some (New "firing alerts missing"))
    | Some firing =>
        if (length firing =? 0)%nat then Return (ctx, alerts, None)
        else
          Send (List.filter
                  (fun a => match Status w a with
                            | types.AlertResolved => false
                            | types.AlertFiring => true
                            end)
                  alerts)
    end
  else Send alerts.

(** The [for] loop of [RetryStage.exec], one turn for each round that the
    environment has in store; [None] when the rounds run out with the loop
    still going.  [i] and [iErr] are the loop's variables. *)
Fixpoint retry_loop (r : RetryStage) (ctx : Context)
         (alerts sent : list AlertPtr) (rds : list Round) (i : Z)
         (iErr : option Error) (w : World R)
  : World R * option StageResult :=
  match rds with
  | [] => (set_rounds [] w, None)
  | rd :: rest =>
      let i := i + 1 in
      if done_at_check rd then
        (set_rounds rest w,
         Some (ctx, [], Some (canceled r (default (ctxErr w) iErr) i)))
      else if done_at_wait rd && negb (tick_wins rd) then
        (set_rounds rest w,
         Some (ctx, [], Some (canceled r (default (ctxErr w) iErr) i)))
      else
        let w1 := emit (EvNotify (Name (integration r)) sent) (emit EvTick w) in
        let '(retry, err) := notify_ret rd in
        match err with
        | Some e =>
            if negb retry then
              (set_rounds rest w1, Some (ctx, alerts, Some (unrecoverable r e i)))
            else
              let differs :=
                match iErr with
                | None => true
                | Some ie => negb (String.eqb (Error_string e) (Error_string ie))
                end in
              let w2 :=
                if negb (done_at_return rd) && differs
                then Log LvlWarn "Notify attempt failed, will retry later" w1
                else w1 in
              retry_loop r ctx alerts sent rest i (Some e) w2
        | None =>
            let w2 := Log (if i <=? 1 then LvlDebug else LvlInfo) "Notify success" w1 in
            (set_rounds rest w2, Some (ctx, alerts, None))
        end
  end.

(** [RetryStage.exec] *)
Definition RetryStage_exec (r : RetryStage) (ctx : Context)
           (alerts : list AlertPtr) (w : World R)
  : World R * option StageResult :=
  match prefilter r ctx alerts w with
  | Return res => (w, Some res)
  | Send sent => retry_loop r ctx alerts sent (rounds w) 0 None w
  end.

(** [RetryStage.Exec]: [exec] between two updates of the metrics. *)
Definition RetryStage_Exec (r : RetryStage) : Stage R :=
  fun ctx alerts w =>
    match RetryStage_exec r ctx alerts w with
    | (w', Some res) => Some (w', res)
    | (_, None) => None
    end.

End Retry.

(** ** A Redis server in memory *)

(** The server behind [redis.Cmdable], after the Redis documentation of the
    five commands and their go-redis wrappers: strings with an optional
    expiry, a clock, and a script of transient faults, one entry for each
    command still to come ([Some e]: the command fails with [e] and does
    nothing). *)
Record MemRedis := {
  data : gmap string (string * option Time);
  rnow : Time;
  faults : list (option Error);
}.

Definition set_data (d : gmap string (string * option Time)) (r : MemRedis) : MemRedis :=
  {| data := d; rnow := rnow r; faults := faults r |}.

(** Time passes on the server. *)
Definition elapse (dt : Duration) (r : MemRedis) : MemRedis :=
  {| data := data r; rnow := rnow r + dt; faults := faults r |}.

(** The next commands meet these faults. *)
Definition with_faults (fs : list (option Error)) (r : MemRedis) : MemRedis :=
  {| data := data r; rnow := rnow r; faults := fs |}.

(** The value of a key that exists and has not expired. *)
Definition live (r : MemRedis) (k : string) : option string :=
  match data r !! k with
  | Some (v, None) => Some v
  | Some (v, Some exp) => if rnow r <? exp then Some v else None
  | None => None
  end.

Definition command {A} (r : MemRedis) (f : MemRedis -> MemRedis * redis.Reply A)
  : MemRedis * redis.Reply A :=
  match faults r with
  | Some e :: fs => (with_faults fs r, redis.Err e)
  | None :: fs => f (with_faults fs r)
  | [] => f r
  end.

Definition mem_Exists (r : MemRedis) (k : string) : MemRedis * redis.Reply Z :=
  command r (fun r =>
    (r, redis.Ok (match live r k with Some _ => 1 | None => 0 end))).

Definition mem_Get (r : MemRedis) (k : string) : MemRedis * redis.Reply string :=
  command r (fun r =>
    match live r k with
    | Some v => (r, redis.Ok v)
    | None => (r, redis.Err redis.Nil)
    end).

Fixpoint del_keys (ks : list string) (r : MemRedis) (n : Z) : MemRedis * Z :=
  match ks with
  | [] => (r, n)
  | k :: ks' =>
      del_keys ks' (set_data (delete k (data r)) r)
               (match live r k with Some _ => n + 1 | None => n end)
  end.

Definition mem_Del (r : MemRedis) (ks : list string) : MemRedis * redis.Reply Z :=
  command r (fun r => let '(r', n) := del_keys ks r 0 in (r', redis.Ok n)).

(** go-redis sends [SETNX] for a zero expiration, [SET .. KEEPTTL NX] for
    [KeepTTL = -1], and [SET .. PX ms NX] (or [EX s]) otherwise, with the
    expiration cut to whole milliseconds and at least one; the server
    rejects an expire time that is not positive. *)
Definition px_millis (expiration : Duration) : Z :=
  if (0 <? expiration) && (expiration <? 1000000) then 1
  else expiration ÷ 1000000.

Definition expiry_of (expiration : Duration) (now : Time) : option Time :=
  if (expiration =? 0) || (expiration =? -1) then None
  else Some (now + px_millis expiration * 1000000).

Definition mem_SetNX (r : MemRedis) (k v : string) (expiration : Duration)
  : MemRedis * redis.Reply bool :=
  command r (fun r =>
    if negb ((expiration =? 0) || (expiration =? -1)) && (px_millis expiration <=? 0)
    then (r, redis.Err (New "ERR invalid expire time in 'set' command"))
    else
      match live r k with
      | Some _ => (r, redis.Ok false)
      | None =>
          (set_data (<[k := (v, expiry_of expiration (rnow r))]> (data r)) r,
           redis.Ok true)
      end).

(** [INCR]: a missing key counts from 0; the value has to be the decimal
    form of an [int64] that is not the largest one. *)
Definition mem_Incr (r : MemRedis) (k : string) : MemRedis * redis.Reply Z :=
  command r (fun r =>
    match live r k with
    | None => (set_data (<[k := ("1", None)]> (data r)) r, redis.Ok 1)
    | Some v =>
        match redis.ParseInt v with
        | Some n =>
            if negb (String.eqb (pretty n) v)
            then (r, redis.Err (New "ERR value is not an integer or out of range"))
            else if n =? 2 ^ 63 - 1
            then (r, redis.Err (New "ERR increment or decrement would overflow"))
            else
              let exp := match data r !! k with Some (_, e) => e | None => None end in
              (set_data (<[k := (pretty (n + 1), exp)]> (data r)) r, redis.Ok (n + 1))
        | None => (r, redis.Err (New "ERR value is not an integer or out of range"))
        end
    end).

#[global] Instance MemRedis_Cmdable : redis.Cmdable MemRedis := {|
  redis.Exists := mem_Exists;
  redis.Get := mem_Get;
  redis.Del := mem_Del;
  redis.SetNX := mem_SetNX;
  redis.Incr := mem_Incr;
|}.

(** ** Concrete inputs *)

Module Sample.

(** Time windows [lo, hi) as the intervals. *)
#[global] Instance window_ops : TimeIntervalOps (Z * Z) :=
  fun ti t => (fst ti <=? t) && (t <? snd ti).

(** A stand-in for xxHash: the length of the buffer. *)
#[global] Instance length_hash : XXHash := fun b => N.of_nat (String.length b).

(** Alert 0 fires, alert 1 is resolved and was stamped before, alert 2 is
    resolved; the clock reads 100. *)
Definition cpu : types.Alert :=
  {| types.Labels := {[ "alertname" := "Cpu" ]}; types.EndsAt := 1000000000000;
     types.Stage := "active"; types.RuleUID := "rule-1"; types.SentCount := 0 |}.
Definition disk : types.Alert :=
  {| types.Labels := {[ "alertname" := "Disk"; "host" := "h1" ]}; types.EndsAt := 50;
     types.Stage := "active"; types.RuleUID := "rule-1"; types.SentCount := 7 |}.
Definition mem : types.Alert :=
  {| types.Labels := {[ "alertname" := "Mem" ]}; types.EndsAt := 60;
     types.Stage := "active"; types.RuleUID := "rule-1"; types.SentCount := 0 |}.

Definition alerts : Heap :=
  fun p => match p with 0%nat => cpu | 1%nat => disk | _ => mem end.

Definition server (d : gmap string (string * option Time))
           (fs : list (option Error)) : MemRedis :=
  {| data := d; rnow := 0; faults := fs |}.

Definition world {R} (r : R) (rds : list Round) : World R :=
  {| rdb := r; heap := alerts; clock := 100; logs := [];
     ctxErr := New "context deadline exceeded"; rounds := rds; trace := [] |}.

Definition webhook : nflogpb.Receiver :=
  {| nflogpb.GroupName := "ops"; nflogpb.Integration := "webhook"; nflogpb.Idx := 0 |}.

Definition dedup : DedupStage := NewDedupStage webhook.

(** Group key [g1], repeat interval 5 minutes. *)
Definition ctx : Context := WithRepeatInterval (WithGroupKey ∅ "g1") 300000000000.

(** The state keys of the three alerts under [ctx] and [webhook]. *)
Definition key (p : AlertPtr) : string :=
  stateKey "g1" webhook (hash dedup (alerts p)).

Definition integration (sendResolved : bool) : Integration :=
  {| rs := sendResolved; name := "webhook"; idx := 0 |}.

Definition retry (sendResolved : bool) : RetryStage :=
  NewRetryStage (integration sendResolved) "ops".

(** Rounds of the retry loop: a tick with the context alive the whole
    round, and a round that finds the context done at its first select. *)
Definition attempt (ret : bool * option Error) : Round :=
  {| done_at_check := false; done_at_wait := false; tick_wins := true;
     notify_ret := ret; done_at_return := false |}.
Definition expired : Round :=
  {| done_at_check := true; done_at_wait := true; tick_wins := false;
     notify_ret := (false, None); done_at_return := true |}.

(** An empty server without faults, the world around it, and the world and
    the context that the first call of [dedup] on the firing alert 0
    returns. *)
Definition fresh : World MemRedis := world (server ∅ []) [].

Definition first_call : World MemRedis * StageResult :=
  default (fresh, (ctx, [], None)) (DedupStage_Exec dedup ctx [0%nat] fresh).

(** A routing stage that knows no receiver. *)
Definition no_route {R} : Stage R := RoutingStage_Exec ∅.

(** A time-mute stage with one window, [night]. *)
Definition night_only : timeStage (Z * Z) := {| Times := {[ "night" := [(0, 10)] ]} |}.

End Sample.

(** ** Vocabulary of the statements *)

(** The names that are in the table with no interval around [now]. *)
Definition quiet {TI : Type} `{!TimeIntervalOps TI} (now : Time)
           (intervals : gmap string (list TI)) (names : list string) : Prop :=
  Forall (fun name =>
            exists interval,
              intervals !! name = Some interval /\
              existsb (fun ti => ContainsTime ti (UTC now)) interval = false)
         names.

(** The world [dt] later: both clocks have moved on by [dt], and the next
    commands sent to the server meet the faults [fs]. *)
Definition later (dt : Duration) (fs : list (option Error))
           (w : World MemRedis) : World MemRedis :=
  {| rdb := with_faults fs (elapse dt (rdb w)); heap := heap w;
     clock := clock w + dt; logs := logs w; ctxErr := ctxErr w;
     rounds := rounds w; trace := trace w |}.

(** [dt] after a [SetNX] with this expiration, the key it has set is still
    there. *)
Definition within_ttl (expiration dt : Duration) : Prop :=
  expiration = 0 \/ expiration = -1 \/ dt < px_millis expiration * 1000000.

(** [SetNX] has set the key: it answered [(true, nil)]. *)
Definition set_ok (nx : redis.Reply bool) : bool :=
  match nx with redis.Ok true => true | _ => false end.

(** [Exists] has found the key: it answered [(1, nil)]. *)
Definition exists_ok (ex : redis.Reply Z) : bool :=
  match ex with redis.Ok n => n =? 1 | redis.Err _ => false end.

(** The [Notify] calls among some events. *)
Definition is_notify (e : Event) : bool :=
  match e with EvNotify _ _ => true | EvTick => false end.

Definition calls (evs : list Event) : nat := length (List.filter is_notify evs).

(** The events come in pairs: a tick received, then [Notify] called for
    [name] with [sent]. *)
Fixpoint tick_then_notify (name : string) (sent : list AlertPtr)
         (evs : list Event) : Prop :=
  match evs with
  | [] => True
  | EvTick :: EvNotify nm s :: rest =>
      nm = name /\ s = sent /\ tick_then_notify name sent rest
  | _ => False
  end.

(** A context that is done stays done: through a round, and from one round
    to the next.  [was_done] tells whether it was done before the rounds. *)
Fixpoint permanent (was_done : bool) (rds : list Round) : bool :=
  match rds with
  | [] => true
  | rd :: rest =>
      implb was_done (done_at_check rd) &&
      implb (done_at_check rd) (done_at_wait rd) &&
      implb (done_at_wait rd) (done_at_return rd) &&
      permanent (done_at_return rd) rest
  end.

(** The second select of the round takes [tick.C]. *)
Definition ticks (rd : Round) : bool :=
  negb (done_at_check rd) && negb (done_at_wait rd && negb (tick_wins rd)).

(** The attempts that the loop completes before the context is done: one
    for each round that ends with the context still alive, up to the first
    attempt that ends the loop. *)
Fixpoint attempts_before_done (rds : list Round) : nat :=
  match rds with
  | [] => 0
  | rd :: rest =>
      if done_at_return rd then 0
      else
        match notify_ret rd with
        | (true, Some _) => S (attempts_before_done rest)
        | _ => 1
        end
  end%nat.

(** A round in which [Notify] was called and failed with an error that can
    be retried. *)
Definition retried (rd : Round) : Prop :=
  ticks rd = true /\ exists e, notify_ret rd = (true, Some e).

(** The error of the last of these rounds, [iErr] when there is none. *)
Definition last_error (iErr : option Error) (pre : list Round) : option Error :=
  match last pre with
  | Some rd => snd (notify_ret rd)
  | None => iErr
  end.

(** The three ways out of [RetryStage] of C7, as the shape of what is
    returned. *)
Definition three_ways (r : RetryStage) (ctx : Context)
           (alerts : list AlertPtr) (res : StageResult) : Prop :=
  res = (ctx, alerts, None) \/
  (exists e N, res = (ctx, alerts, Some (unrecoverable r e N))) \/
  (exists cause N, res = (ctx, [], Some (canceled r cause N))).

(** * The rest of the pipeline *)

(** ** ClearSKeyStage *)

(** The set commands of [redis.Cmdable] that [ClearSKeyStage] issues, each
    with its [.Err()] and the count it answers. *)
Class SetCmdable (R : Type) := {
  SAdd : R -> string -> list string -> R * redis.Reply Z;
  SRem : R -> string -> list string -> R * redis.Reply Z;
}.

(** [ClearSKeyStage]; its [rdb] is the [rdb] of the world. *)
Record ClearSKeyStage := {
  clear_recv : nflogpb.Receiver;
}.

(** [NewClearSKeysStage] *)
Definition NewClearSKeysStage (recv : nflogpb.Receiver) : ClearSKeyStage :=
  {| clear_recv := recv |}.

(** The [stateKeys] that both branches of [ClearSKeyStage.Exec] build:
    [make([]string, len(hashes))], a slice of that many empty strings, and
    then two [append]s for each hash. *)
Definition clear_stateKeys (gkey : string) (recv : nflogpb.Receiver)
           (hashes : list N) : list string :=
  fold_left
    (fun stateKeys hash =>
       let sKey := stateKey gkey recv hash in
       stateKeys ++ [sKey; AlertSentPrefix +:+ sKey])
    hashes (replicate (length hashes) EmptyString).

Section Clear.
Context {R : Type} `{!redis.Cmdable R} `{!SetCmdable R}.

(** The [if firing, ok := FiringAlerts(ctx); ok && len(firing) > 0] block. *)
Definition clear_firing (n : ClearSKeyStage) (gkey ruleUID : string)
           (ctx : Context) (w : World R) : World R :=
  match FiringAlerts ctx with
  | Some firing =>
      if (0 <? length firing)%nat then
        let stateKeys := clear_stateKeys gkey (clear_recv n) firing in
        match SAdd (rdb w) ruleUID stateKeys with
        | (r1, redis.Err err) =>
            Log LvlError "Set rule uid idx to redis failed" (set_rdb r1 w)
        | (r1, redis.Ok _) => set_rdb r1 w
        end
      else w
  | None => w
  end.

(** The [if resolved, ok := ResolvedAlerts(ctx); ok && len(resolved) > 0]
    block. *)
Definition clear_resolved (n : ClearSKeyStage) (gkey ruleUID : string)
           (ctx : Context) (w : World R) : World R :=
  match ResolvedAlerts ctx with
  | Some resolved =>
      if (0 <? length resolved)%nat then
        let stateKeys := clear_stateKeys gkey (clear_recv n) resolved in
        let w1 :=
          match redis.Del (rdb w) stateKeys with
          | (r1, redis.Err err) =>
              Log LvlError "Del stateKeys to redis failed" (set_rdb r1 w)
          | (r1, redis.Ok _) => set_rdb r1 w
          end in
        match SRem (rdb w1) ruleUID stateKeys with
        | (r2, redis.Err err) =>
            Log LvlError "Del stateKeys idx to redis failed" (set_rdb r2 w1)
        | (r2, redis.Ok _) => set_rdb r2 w1
        end
      else w
  | None => w
  end.

(** [ClearSKeyStage.Exec] *)
Definition ClearSKeyStage_Exec (n : ClearSKeyStage) : Stage R :=
  fun ctx alerts w =>
    match GroupKey ctx with
    | None => Some (w, (ctx, [], Some (New "group key missing")))
    | Some gkey =>
        match RuleUID ctx with
        | None => Some (w, (ctx, alerts, None))
        | Some ruleUID =>
            let w1 := clear_firing n gkey ruleUID ctx w in
            let w2 := clear_resolved n gkey ruleUID ctx w1 in
            Some (w2, (ctx, alerts, None))
        end
    end.

End Clear.

(** ** PipelineBuilder *)

Module Receiver.
(** Modelled from the spec: [Receiver] is declared in package [notify], in
    a file that is not part of this development.  The spec gives it a
    [groupName], the flag [active] and "an ordered list of Integrations". *)
Record t := {
  groupName : string;
  integrations : list Integration;
  active : bool;
}.
End Receiver.

(** The conversion [uint32(i)] of an [int]. *)
Definition uint32 (i : Z) : N := Z.to_N (i mod 2 ^ 32).

Section Pipeline.
Context {R : Type} `{!redis.Cmdable R} `{!XXHash}.
Context {TI : Type} `{!TimeIntervalOps TI}.

(** The [MultiStage] that [createReceiverStage] builds for one integration. *)
Definition integrationStage (groupName : string) (i : Integration) : Stage R :=
  let recv :=
    {| nflogpb.GroupName := groupName;
       nflogpb.Integration := Name i;
       nflogpb.Idx := uint32 (Index i) |} in
  MultiStage_Exec [DedupStage_Exec (NewDedupStage recv);
                   RetryStage_Exec (NewRetryStage i groupName)].

(** [createReceiverStage]: the [FanoutStage] it returns, as its [Exec]. *)
Definition createReceiverStage (receiver : Receiver.t) : Stage R :=
  FanoutStage_Exec
    (map (integrationStage (Receiver.groupName receiver))
         (Receiver.integrations receiver)).

(** The [MultiStage{is, tas, tms, ss, st}] of [PipelineBuilder.New]. *)
Definition receiverPipeline (inhibitor silencer : gmap string string -> bool)
           (times : gmap string (list TI)) (r : Receiver.t) : Stage R :=
  let is_ := MuteStage_Exec inhibitor in
  let tas := TimeActiveStage_Exec {| Times := times |} in
  let tms := TimeMuteStage_Exec {| Times := times |} in
  let ss := MuteStage_Exec silencer in
  MultiStage_Exec [is_; tas; tms; ss; createReceiverStage r].

(** [PipelineBuilder.New]: the [RoutingStage] map. *)
Definition PipelineBuilder_New (receivers : list Receiver.t)
           (inhibitor silencer : gmap string string -> bool)
           (times : gmap string (list TI)) : gmap string (Stage R) :=
  fold_left
    (fun rs r =>
       <[Receiver.groupName r := receiverPipeline inhibitor silencer times r]> rs)
    receivers ∅.

End Pipeline.

(** ** Vocabulary of the further statements *)



(** The label names in the order in which [hashAlert] writes them. *)
Definition hash_names (a : types.Alert) : list string :=
  merge_sort LabelNames_le (map fst (map_to_list (types.Labels a))).

(** The muter lets the alert through. *)
Definition not_muted {R} (w : World R) (muter : gmap string string -> bool)
           (a : AlertPtr) : bool :=
  negb (muter (types.Labels (heap w a))).

(** The heap [h'] is the heap [h] but for the [SentCount] of alerts among
    [ps]. *)
Definition stamped_only (ps : list AlertPtr) (h h' : Heap) : Prop :=
  forall p,
    h' p = h p \/
    (In p ps /\ exists count, h' p = types.set_SentCount count (h p)).

(** The hash of an alert does not read its [SentCount]. *)
Definition hash_ignores_SentCount (n : DedupStage) : Prop :=
  forall x count, hash n (types.set_SentCount count x) = hash n x.

(** What the server holds under the state key lets an alert of this stage
    through: no value that is still alive, or the name of another stage. *)
Definition lets_through (r : MemRedis) (sKey stage : string) : bool :=
  match live r sKey with
  | None => true
  | Some s => negb (String.eqb s EmptyString) && negb (String.eqb s stage)
  end.

(** An expiration that the server takes: a time to live, none, or
    [redis.KeepTTL]. *)
Definition taken (expiration : Duration) : Prop :=
  0 <= expiration \/ expiration = -1.

(** The warnings among the lines of a log. *)
Definition warnings (ls : list LogLine) : list LogLine :=
  List.filter (fun l => match lvl l with LvlWarn => true | _ => false end) ls.

(** All the errors that the integration returns in these rounds read [s]. *)
Definition same_failure (s : string) (rds : list Round) : Prop :=
  Forall (fun rd => forall e, snd (notify_ret rd) = Some e -> Error_string e = s)
         rds.

(** The world [w'] is the world [w] but for the lines of the log. *)
Definition logs_only {R : Type} (w w' : World R) : Prop :=
  rdb w' = rdb w /\ heap w' = heap w /\ clock w' = clock w /\
  ctxErr w' = ctxErr w /\ rounds w' = rounds w /\ trace w' = trace w.

(** The receivers of this name, in the order of the configuration. *)
Definition named (name : string) (receivers : list Receiver.t)
  : list Receiver.t :=
  List.filter (fun r => String.eqb (Receiver.groupName r) name) receivers.

(** A receiver [ops] with the webhook that wants no resolved alerts, a
    second receiver of the same name without integrations, two muters, and
    a context that names [ops]. *)
Module Route.

Definition ops : Receiver.t :=
  {| Receiver.groupName := "ops";
     Receiver.integrations := [Sample.integration false];
     Receiver.active := true |}.

Definition bare : Receiver.t :=
  {| Receiver.groupName := "ops"; Receiver.integrations := [];
     Receiver.active := true |}.

Definition nothing : gmap string string -> bool := fun _ => false.
Definition everything : gmap string string -> bool := fun _ => true.

Definition to_ops : Context := WithReceiverName Sample.ctx "ops".

(** The empty server, and a [Notify] that succeeds at the first tick. *)
Definition ready : World MemRedis :=
  Sample.world (Sample.server ∅ []) [Sample.attempt (false, None)].

(** The firing alert 0 through the pipeline of [ops]. *)
Definition delivered : World MemRedis * StageResult :=
  default (ready, (to_ops, [0%nat], None))
          (receiverPipeline (TI := Z * Z) nothing nothing ∅ ops to_ops [0%nat] ready).

End Route.

(** * Properties *)

(** ** MultiStage *)

Section MultiStageFacts.
Context {R : Type}.

Lemma MultiStage_Exec_nil (ctx : Context) (alerts : list AlertPtr) (w : World R) :
  MultiStage_Exec [] ctx alerts w = Some (w, (ctx, alerts, None)).
Proof. reflexivity. Qed.

Lemma MultiStage_Exec_empty_batch (ms : list (Stage R)) (s : Stage R)
      (ctx : Context) (w : World R) :
  MultiStage_Exec (s :: ms) ctx [] w = Some (w, (ctx, [], None)).
Proof. reflexivity. Qed.

Lemma MultiStage_Exec_cons (ms : list (Stage R)) (s : Stage R) (ctx : Context)
      (a : AlertPtr) (alerts : list AlertPtr) (w : World R) :
  MultiStage_Exec (s :: ms) ctx (a :: alerts) w =
  match s ctx (a :: alerts) w with
  | None => None
  | Some (w', (ctx', _, Some e)) => Some (w', (ctx', [], Some e))
  | Some (w', (ctx', alerts', None)) => MultiStage_Exec ms ctx' alerts' w'
  end.
Proof.
  simpl. destruct (s ctx (a :: alerts) w) as [[w' [[ctx' alerts'] [e|]]]|]; reflexivity.
Qed.

(** C8, as amended.  On a batch that is not empty, [MultiStage{X}] returns
    when [X] does, with the context and the error of [X]; the alerts are
    those of [X] when the error is nil and nil otherwise.  On the empty
    batch [MultiStage{X}] returns [(ctx, nil, nil)] and [X] is not run. *)
Theorem MultiStage_single (X : Stage R) (ctx : Context)
        (alerts : list AlertPtr) (w : World R) :
  (alerts = [] ->
   MultiStage_Exec [X] ctx alerts w = Some (w, (ctx, [], None))) /\
  (alerts <> [] ->
   forall w' ctx' alerts' err,
     X ctx alerts w = Some (w', (ctx', alerts', err)) ->
     MultiStage_Exec [X] ctx alerts w =
     Some (w', (ctx', match err with None => alerts' | Some _ => [] end, err))) /\
  (alerts <> [] ->
   X ctx alerts w = None -> MultiStage_Exec [X] ctx alerts w = None).
Proof.
  split; [|split].
  - intros ->. reflexivity.
  - intros Hne w' ctx' alerts' err HX.
    destruct alerts as [|a alerts]; [congruence|].
    rewrite MultiStage_Exec_cons, HX. destruct err; reflexivity.
  - intros Hne HX.
    destruct alerts as [|a alerts]; [congruence|].
    rewrite MultiStage_Exec_cons, HX. reflexivity.
Qed.

End MultiStageFacts.

Lemma MultiStage_single_witness :
  MultiStage_Exec [MuteStage_Exec (fun _ => false)] Sample.ctx [0%nat]
                  (Sample.world tt []) =
  Some (Sample.world tt [], (Sample.ctx, [0%nat], None)).
Proof.
  apply (proj1 (proj2 (MultiStage_single (MuteStage_Exec (fun _ => false))
                                         Sample.ctx [0%nat] (Sample.world tt [])))
               ltac:(discriminate) (Sample.world tt []) Sample.ctx [0%nat] None).
  reflexivity.
Defined.

(** C8, as stated, fails.  With [X] the routing stage that knows no
    receiver, [X] fails on the empty batch and [MultiStage{X}] does not; with
    [X] the time-mute stage and no [Now] in the context, [X] returns its
    input along with the error and [MultiStage{X}] returns nil. *)
Lemma MultiStage_single_counterexample :
  (let w := Sample.world tt [] in
   Sample.no_route ∅ [] w = Some (w, (∅, [], Some (New "receiver missing"))) /\
   MultiStage_Exec [Sample.no_route] ∅ [] w = Some (w, (∅, [], None))) /\
  (let w := Sample.world tt [] in
   let ctx := WithMuteTimeIntervals ∅ ["night"] in
   let X := TimeMuteStage_Exec Sample.night_only in
   X ctx [0%nat] w = Some (w, (ctx, [0%nat], Some (New "missing now timestamp"))) /\
   MultiStage_Exec [X] ctx [0%nat] w =
     Some (w, (ctx, [], Some (New "missing now timestamp")))) /\
  ~ (forall (X : Stage unit) ctx alerts w,
        MultiStage_Exec [X] ctx alerts w = X ctx alerts w).
Proof.
  split; [split; reflexivity|]. split; [split; reflexivity|].
  intros H.
  specialize (H Sample.no_route ∅ [] (Sample.world tt [])).
  discriminate H.
Qed.

(** ** FanoutStage *)

Section FanoutFacts.
Context {R : Type}.

(** Whatever the substages do, [FanoutStage.Exec] hands back its own
    context and the nil [as]. *)
Lemma FanoutStage_Exec_alerts_nil (fs : list (Stage R)) (ctx : Context)
      (alerts : list AlertPtr) (w w' : World R) (res : StageResult) :
  FanoutStage_Exec fs ctx alerts w = Some (w', res) ->
  fst res = (ctx, []).
Proof.
  unfold FanoutStage_Exec.
  destruct (fanout_run fs ctx alerts [] w) as [[w1 me]|]; [|discriminate].
  destruct (0 <? types.MultiError_Len me)%nat; intros [= _ <-]; reflexivity.
Qed.

End FanoutFacts.

(** C1 at a failing input: one substage that succeeds and a batch of one
    alert.  The stage returns nil alerts with a nil error, which is neither
    the input batch nor an error. *)
Theorem FanoutStage_Exec_drops_input :
  FanoutStage_Exec [MuteStage_Exec (fun _ => false)] Sample.ctx [0%nat]
                   (Sample.world tt []) =
  Some (Sample.world tt [], (Sample.ctx, [], None)).
Proof. reflexivity. Qed.

(** ** TimeMuteStage and TimeActiveStage *)

Section TimeStageFacts.
Context {R : Type} {TI : Type} `{!TimeIntervalOps TI}.

Lemma inTimeIntervals_first_absent (now : Time)
      (intervals : gmap string (list TI)) (pre post : list string)
      (name : string) :
  quiet now intervals pre ->
  intervals !! name = None ->
  inTimeIntervals now intervals (pre ++ name :: post) =
  (false, Some (New ("time interval " +:+ name +:+ " doesn't exist in config"))).
Proof.
  intros Hpre Hname. induction Hpre as [|n pre [iv [Hn Hq]] _ IH]; simpl.
  - rewrite Hname. reflexivity.
  - rewrite Hn, Hq. exact IH.
Qed.

Lemma TimeMuteStage_Exec_verdict (tms : timeStage TI) (ctx : Context) :
  exists (keep : bool) (err : option Error),
    (keep, err) =
    match MuteTimeIntervalNames ctx, Now ctx with
    | None, _ => (true, None)
    | Some _, None => (true, Some (New "missing now timestamp"))
    | Some names, Some now =>
        match inTimeIntervals now (Times tms) names with
        | (_, Some e) => (true, Some e)
        | (muted, None) => (negb muted, None)
        end
    end /\
    forall alerts (w : World R),
    exists w',
      TimeMuteStage_Exec tms ctx alerts w =
      Some (w', (ctx, if keep then alerts else [], err)).
Proof.
  unfold TimeMuteStage_Exec.
  destruct (MuteTimeIntervalNames ctx) as [names|]; [|by eexists _, _; split; eauto].
  destruct (Now ctx) as [now|]; [|by eexists _, _; split; eauto].
  destruct (inTimeIntervals now (Times tms) names) as [muted [e|]];
    [by eexists _, _; split; eauto|].
  destruct muted; eexists _, _; split; eauto.
Qed.

Lemma TimeActiveStage_Exec_verdict (tas : timeStage TI) (ctx : Context) :
  exists (keep : bool) (err : option Error),
    (keep, err) =
    match ActiveTimeIntervalNames ctx, Now ctx with
    | None, _ => (true, None)
    | Some [], _ => (true, None)
    | Some _, None => (true, Some (New "missing now timestamp"))
    | Some names, Some now =>
        match inTimeIntervals now (Times tas) names with
        | (_, Some e) => (true, Some e)
        | (active, None) => (active, None)
        end
    end /\
    forall alerts (w : World R),
    exists w',
      TimeActiveStage_Exec tas ctx alerts w =
      Some (w', (ctx, if keep then alerts else [], err)).
Proof.
  unfold TimeActiveStage_Exec.
  destruct (ActiveTimeIntervalNames ctx) as [names|]; [|by eexists _, _; split; eauto].
  destruct names as [|name names]; [by eexists _, _; split; eauto|].
  cbn [length Nat.eqb].
  destruct (Now ctx) as [now|]; [|by eexists _, _; split; eauto].
  destruct (inTimeIntervals now (Times tas) (name :: names)) as [active [e|]];
    [by eexists _, _; split; eauto|].
  destruct active; eexists _, _; split; eauto.
Qed.

(** C9, as amended.  Each of the two stages returns its input or the empty
    batch, and which of the two, and with which error, is the same for any
    two contexts that agree on the interval names and on [Now], whatever
    the alerts.  When [Now] is there and a listed name is absent from the
    table, with every name listed before it in the table and none of their
    intervals around [Now], the stage returns its input along with the
    error [time interval <name> doesn't exist in config]. *)
Theorem TimeStages_all_or_nothing (ts : timeStage TI) (ctx1 ctx2 : Context) :
  (MuteTimeIntervalNames ctx1 = MuteTimeIntervalNames ctx2 ->
   Now ctx1 = Now ctx2 ->
   exists (keep : bool) (err : option Error),
   forall alerts (w : World R),
   exists w1 w2,
     TimeMuteStage_Exec ts ctx1 alerts w =
       Some (w1, (ctx1, if keep then alerts else [], err)) /\
     TimeMuteStage_Exec ts ctx2 alerts w =
       Some (w2, (ctx2, if keep then alerts else [], err))) /\
  (ActiveTimeIntervalNames ctx1 = ActiveTimeIntervalNames ctx2 ->
   Now ctx1 = Now ctx2 ->
   exists (keep : bool) (err : option Error),
   forall alerts (w : World R),
   exists w1 w2,
     TimeActiveStage_Exec ts ctx1 alerts w =
       Some (w1, (ctx1, if keep then alerts else [], err)) /\
     TimeActiveStage_Exec ts ctx2 alerts w =
       Some (w2, (ctx2, if keep then alerts else [], err))) /\
  (forall now pre name post,
      Now ctx1 = Some now ->
      quiet now (Times ts) pre ->
      Times ts !! name = None ->
      let err := New ("time interval " +:+ name +:+ " doesn't exist in config") in
      (MuteTimeIntervalNames ctx1 = Some (pre ++ name :: post) ->
       forall alerts (w : World R),
         TimeMuteStage_Exec ts ctx1 alerts w = Some (w, (ctx1, alerts, Some err))) /\
      (ActiveTimeIntervalNames ctx1 = Some (pre ++ name :: post) ->
       forall alerts (w : World R),
         TimeActiveStage_Exec ts ctx1 alerts w = Some (w, (ctx1, alerts, Some err)))).
Proof.
  split; [|split].
  - intros Hn Ht.
    destruct (TimeMuteStage_Exec_verdict ts ctx1) as (k1 & e1 & E1 & H1).
    destruct (TimeMuteStage_Exec_verdict ts ctx2) as (k2 & e2 & E2 & H2).
    rewrite <- Hn, <- Ht, <- E1 in E2. injection E2 as -> ->.
    exists k1, e1. intros alerts w.
    destruct (H1 alerts w) as [w1 Hw1]. destruct (H2 alerts w) as [w2 Hw2].
    eauto.
  - intros Hn Ht.
    destruct (TimeActiveStage_Exec_verdict ts ctx1) as (k1 & e1 & E1 & H1).
    destruct (TimeActiveStage_Exec_verdict ts ctx2) as (k2 & e2 & E2 & H2).
    rewrite <- Hn, <- Ht, <- E1 in E2. injection E2 as -> ->.
    exists k1, e1. intros alerts w.
    destruct (H1 alerts w) as [w1 Hw1]. destruct (H2 alerts w) as [w2 Hw2].
    eauto.
  - intros now pre name post Hnow Hpre Hname err. split.
    + intros Hnames alerts w. unfold TimeMuteStage_Exec.
      rewrite Hnames, Hnow, (inTimeIntervals_first_absent _ _ _ _ _ Hpre Hname).
      reflexivity.
    + intros Hnames alerts w. unfold TimeActiveStage_Exec.
      rewrite Hnames, Hnow, (inTimeIntervals_first_absent _ _ _ _ _ Hpre Hname).
      destruct pre; reflexivity.
Qed.

End TimeStageFacts.

(** No [day] in the table, and [Now] = 50 is outside [night]. *)
Lemma TimeStages_all_or_nothing_witness :
  let ctx := WithNow (WithMuteTimeIntervals ∅ ["night"; "day"]) 50 in
  TimeMuteStage_Exec Sample.night_only ctx [0%nat; 1%nat] (Sample.world tt []) =
  Some (Sample.world tt [],
        (ctx, [0%nat; 1%nat],
         Some (New "time interval day doesn't exist in config"))).
Proof.
  intros ctx.
  refine (proj1 (proj2 (proj2 (TimeStages_all_or_nothing (R := unit)
                                 Sample.night_only ctx ctx))
                       50 ["night"] "day" [] _ _ _) _ _ _).
  - reflexivity.
  - repeat constructor. exists [(0, 10)]. split; reflexivity.
  - reflexivity.
  - reflexivity.
Defined.

(** C9, as stated, fails: [day] is listed and is not in the table, yet with
    [Now] = 5 inside [night], which is listed first, the stage drops the
    batch and returns no error. *)
Lemma TimeStages_absent_name_counterexample :
  let ctx := WithNow (WithMuteTimeIntervals ∅ ["night"; "day"]) 5 in
  MuteTimeIntervalNames ctx = Some ["night"; "day"] /\
  Times Sample.night_only !! "day" = None /\
  TimeMuteStage_Exec Sample.night_only ctx [0%nat; 1%nat] (Sample.world tt []) =
  Some (Log LvlDebug "Notifications not sent, route is within mute time"
            (Sample.world tt []),
        (ctx, [], None)).
Proof. repeat split. Qed.

(** ** DedupStage: the context it returns *)

Section DedupContext.
Context {R : Type} `{!redis.Cmdable R}.

Lemma FiringAlerts_installed (ctx : Context) (fs rs_ : list N) :
  FiringAlerts (WithResolvedAlerts (WithFiringAlerts ctx fs) rs_) = Some fs.
Proof.
  unfold FiringAlerts, WithResolvedAlerts, WithFiringAlerts.
  rewrite lookup_insert_ne by discriminate.
  rewrite lookup_insert_eq. reflexivity.
Qed.

Lemma ResolvedAlerts_installed (ctx : Context) (rs_ : list N) :
  ResolvedAlerts (WithResolvedAlerts ctx rs_) = Some rs_.
Proof.
  unfold ResolvedAlerts, WithResolvedAlerts.
  rewrite lookup_insert_eq. reflexivity.
Qed.

(** C10.  With [GroupKey] and [RepeatInterval] in the context,
    [DedupStage.Exec] returns, without an error, a context that has both
    [FiringAlerts] and [ResolvedAlerts], for any batch, so the pre-filter of
    a [RetryStage] run on what it returns never fails with
    [firing alerts missing]; and it returns without an error only when both
    keys were in the context. *)
Theorem DedupStage_Exec_installs_hashes (n : DedupStage) (ctx : Context)
        (alerts : list AlertPtr) (w : World R) :
  (forall gkey repeatInterval,
      GroupKey ctx = Some gkey ->
      RepeatInterval ctx = Some repeatInterval ->
      exists w' ctx' out fs rs_,
        DedupStage_Exec n ctx alerts w = Some (w', (ctx', out, None)) /\
        FiringAlerts ctx' = Some fs /\
        ResolvedAlerts ctx' = Some rs_ /\
        forall r, prefilter r ctx' out w' <>
                  Return (ctx', [], Some (New "firing alerts missing"))) /\
  (forall w' ctx' out,
      DedupStage_Exec n ctx alerts w = Some (w', (ctx', out, None)) ->
      is_Some (GroupKey ctx) /\ is_Some (RepeatInterval ctx)).
Proof.
  unfold DedupStage_Exec. split.
  - intros gkey ri -> ->. eexists _, _, _, _, _.
    split; [reflexivity|].
    split; [apply FiringAlerts_installed|].
    split; [apply ResolvedAlerts_installed|].
    intros r. unfold prefilter.
    rewrite FiringAlerts_installed.
    destruct (negb (SendResolved (integration r))); [|discriminate].
    destruct (length _ =? 0)%nat; discriminate.
  - intros w' ctx' out.
    destruct (GroupKey ctx); [|discriminate].
    destruct (RepeatInterval ctx); [|discriminate].
    intros _. split; eauto.
Qed.

End DedupContext.

(** An empty batch on a server that fails every command. *)
Lemma DedupStage_Exec_installs_hashes_witness :
  exists w' ctx' out fs rs_,
    DedupStage_Exec Sample.dedup Sample.ctx []
      (Sample.world (Sample.server ∅ [Some (New "EOF")]) []) =
      Some (w', (ctx', out, None)) /\
    FiringAlerts ctx' = Some fs /\
    ResolvedAlerts ctx' = Some rs_ /\
    forall r, prefilter r ctx' out w' <>
              Return (ctx', [], Some (New "firing alerts missing")).
Proof.
  apply (proj1 (DedupStage_Exec_installs_hashes Sample.dedup Sample.ctx []
                  (Sample.world (Sample.server ∅ [Some (New "EOF")]) []))
               "g1" 300000000000); reflexivity.
Defined.

(** ** DedupStage: one turn of the loop *)

Section DedupFacts.
Context {R : Type} `{!redis.Cmdable R}.
Implicit Types (n : DedupStage) (v : DedupVars R) (a : AlertPtr) (w : World R).

Lemma store_same (h : Heap) (a : AlertPtr) (x : types.Alert) : store h a x a = x.
Proof. unfold store. rewrite Nat.eqb_refl. reflexivity. Qed.


Lemma dedup_stage_check_frame (sKey : string) a w :
  heap (dedup_stage_check sKey a w).2 = heap w /\
  clock (dedup_stage_check sKey a w).2 = clock w.
Proof.
  unfold dedup_stage_check.
  destruct (redis.Get (rdb w) sKey) as [r1 [s|e]];
    match goal with |- context [if ?c then _ else _] => destruct c end;
    split; reflexivity.
Qed.

(** A [Get] that fails makes the stage fall back on [a.Stage]: nothing is
    deleted and the turn goes on to [SetNX]. *)
Lemma dedup_stage_check_Get_error (sKey : string) a w (r1 : R) (e : Error) :
  redis.Get (rdb w) sKey = (r1, redis.Err e) ->
  dedup_stage_check sKey a w =
  (types.Stage (heap w a),
   Log LvlError "Get stage from redis failed" (set_rdb r1 w)).
Proof.
  intros HG. unfold dedup_stage_check. rewrite HG.
  destruct (String.eqb_spec (types.Stage (heap w a)) EmptyString) as [->|Hne]; simpl.
  - reflexivity.
  - rewrite String.eqb_refl. reflexivity.
Qed.

(** The turn of an alert that is not resolved. *)
Lemma dedup_body_firing n (gkey : string) (ri : Duration) v a (r2 : R)
      (nx : redis.Reply bool) :
  Resolved (dv_world v) a = false ->
  let h := hash n (heap (dv_world v) a) in
  let sKey := stateKey gkey (recv n) h in
  let w1 := (dedup_stage_check sKey a (dv_world v)).2 in
  redis.SetNX (rdb w1) sKey (types.Stage (heap (dv_world v) a)) ri = (r2, nx) ->
  let v' := dedup_body n gkey ri v a in
  resolved v' = resolved v /\
  needsUpdateAlerts v' = needsUpdateAlerts v ++ (if set_ok nx then [a] else []) /\
  firing v' = firing v ++ (if set_ok nx then [h] else []) /\
  (set_ok nx = true ->
   forall r3 inc,
     redis.Incr r2 (AlertSentPrefix +:+ sKey) = (r3, inc) ->
     rdb (dv_world v') = r3 /\
     match inc with
     | redis.Ok count =>
         heap (dv_world v') =
         store (heap (dv_world v)) a
               (types.set_SentCount count (heap (dv_world v) a))
     | redis.Err _ => heap (dv_world v') = heap (dv_world v)
     end) /\
  (set_ok nx = false ->
   rdb (dv_world v') = r2 /\ heap (dv_world v') = heap (dv_world v)).
Proof.
  intros Hres h sKey w1 HNX v'.
  subst v'. unfold dedup_body. rewrite Hres. fold h. fold sKey.
  unfold dedup_firing.
  destruct (dedup_stage_check_frame sKey a (dv_world v)) as [Hheap _].
  fold w1 in Hheap. subst w1.
  destruct (dedup_stage_check sKey a (dv_world v)) as [stage w1]; simpl in *.
  rewrite Hheap, HNX.
  destruct nx as [[|]|e]; simpl.
  - destruct (redis.Incr r2 (AlertSentPrefix +:+ sKey)) as [r3 inc] eqn:HI.
    split_and!; try done.
    intros _ r3' inc' [= <- <-].
    destruct inc as [count|e]; simpl; done.
  - rewrite !app_nil_r. split_and!; done.
  - rewrite !app_nil_r. split_and!; done.
Qed.

(** The turn of a resolved alert. *)
Lemma dedup_body_resolved n (gkey : string) (ri : Duration) v a (r1 : R)
      (ex : redis.Reply Z) :
  Resolved (dv_world v) a = true ->
  let h := hash n (heap (dv_world v) a) in
  let sKey := stateKey gkey (recv n) h in
  redis.Exists (rdb (dv_world v)) sKey = (r1, ex) ->
  let v' := dedup_body n gkey ri v a in
  resolved v' = resolved v ++ [h] /\
  firing v' = firing v /\
  needsUpdateAlerts v' = needsUpdateAlerts v ++ (if exists_ok ex then [a] else []) /\
  (exists_ok ex = true ->
   forall r2 got,
     redis.GetInt64 r1 (AlertSentPrefix +:+ sKey) = (r2, got) ->
     rdb (dv_world v') = r2 /\
     match got with
     | redis.Ok count =>
         heap (dv_world v') =
         store (heap (dv_world v)) a
               (types.set_SentCount count (heap (dv_world v) a))
     | redis.Err _ => heap (dv_world v') = heap (dv_world v)
     end) /\
  (exists_ok ex = false ->
   rdb (dv_world v') = r1 /\ heap (dv_world v') = heap (dv_world v)).
Proof.
  intros Hres h sKey HE v'.
  subst v'. unfold dedup_body. rewrite Hres. fold h. fold sKey.
  unfold dedup_resolved. rewrite HE.
  destruct ex as [m|e]; simpl.
  - destruct (m =? 1).
    + destruct (redis.GetInt64 r1 (AlertSentPrefix +:+ sKey)) as [r2 got] eqn:HG.
      split_and!; try done.
      intros _ r2' got' [= <- <-].
      destruct got as [count|e]; simpl; done.
    + rewrite !app_nil_r. split_and!; done.
  - rewrite !app_nil_r. split_and!; done.
Qed.




End DedupFacts.

(** ** The server in memory *)

Section MemRedisFacts.
Implicit Types (r : MemRedis) (k : string).

Lemma length_append (s1 s2 : string) :
  String.length (s1 +:+ s2) = (String.length s1 + String.length s2)%nat.
Proof. induction s1 as [|c s1 IH]; simpl; [reflexivity|by rewrite IH]. Qed.

(** The counter of a state key is another key. *)
Lemma counter_key_ne (sKey : string) : AlertSentPrefix +:+ sKey <> sKey.
Proof.
  intros Heq. apply (f_equal String.length) in Heq.
  rewrite length_append in Heq. simpl in Heq. lia.
Qed.

Lemma live_ext r r' k :
  data r' = data r -> rnow r' = rnow r -> live r' k = live r k.
Proof. unfold live. intros -> ->. reflexivity. Qed.

(** A command either meets a fault and does nothing, or runs on the server
    as it is. *)
Lemma command_cases {A} r (f : MemRedis -> MemRedis * redis.Reply A) :
  exists r0,
    data r0 = data r /\ rnow r0 = rnow r /\
    (command r f = f r0 \/ exists e, command r f = (r0, redis.Err e)).
Proof.
  unfold command. destruct (faults r) as [|[e|] fs].
  - exists r. auto.
  - exists (with_faults fs r). eauto 6.
  - exists (with_faults fs r). auto.
Qed.

Lemma mem_Exists_frame r k r' (rep : redis.Reply Z) :
  mem_Exists r k = (r', rep) -> data r' = data r /\ rnow r' = rnow r.
Proof.
  unfold mem_Exists.
  destruct (command_cases r (fun r => (r, redis.Ok (match live r k with
                                                    | Some _ => 1
                                                    | None => 0
                                                    end))))
    as (r0 & Hd & Hn & [-> | [e ->]]); intros [= <- _]; auto.
Qed.

Lemma mem_Get_frame r k r' (rep : redis.Reply string) :
  mem_Get r k = (r', rep) ->
  data r' = data r /\ rnow r' = rnow r /\
  forall s, rep = redis.Ok s -> live r k = Some s.
Proof.
  unfold mem_Get.
  match goal with |- context [command r ?f] =>
    destruct (command_cases r f) as (r0 & Hd & Hn & [-> | [e ->]])
  end.
  - rewrite (live_ext _ _ k Hd Hn).
    destruct (live r k) as [x|]; intros [= <- <-]; split_and!; auto; congruence.
  - intros [= <- <-]. split_and!; auto; congruence.
Qed.

Lemma mem_GetInt64_frame r k r' (rep : redis.Reply Z) :
  redis.GetInt64 r k = (r', rep) -> data r' = data r /\ rnow r' = rnow r.
Proof.
  unfold redis.GetInt64. simpl.
  destruct (mem_Get r k) as [r1 [x|e]] eqn:HG;
    destruct (mem_Get_frame _ _ _ _ HG) as (Hd & Hn & _).
  - destruct (redis.ParseInt x); intros [= <- _]; auto.
  - intros [= <- _]; auto.
Qed.

(** A [SetNX] that sets the key puts the value there with the expiry of the
    expiration, and touches nothing else. *)
Lemma mem_SetNX_true r k (x : string) (expiration : Duration) r' :
  mem_SetNX r k x expiration = (r', redis.Ok true) ->
  rnow r' = rnow r /\
  data r' = <[k := (x, expiry_of expiration (rnow r))]> (data r).
Proof.
  unfold mem_SetNX.
  match goal with |- context [command r ?f] =>
    destruct (command_cases r f) as (r0 & Hd & Hn & [-> | [e ->]])
  end; [|discriminate].
  destruct (negb _ && _); [discriminate|].
  destruct (live r0 k); [discriminate|].
  intros [= <-]. simpl. rewrite Hd, Hn. auto.
Qed.


(** [Incr] leaves the clock and the other keys alone. *)
Lemma mem_Incr_frame r k r' (rep : redis.Reply Z) :
  mem_Incr r k = (r', rep) ->
  rnow r' = rnow r /\ forall k', k' <> k -> data r' !! k' = data r !! k'.
Proof.
  unfold mem_Incr.
  match goal with |- context [command r ?f] =>
    destruct (command_cases r f) as (r0 & Hd & Hn & [-> | [e ->]])
  end.
  - destruct (live r0 k) as [x|].
    + destruct (redis.ParseInt x) as [m|].
      * destruct (negb _); [intros [= <- _]; rewrite Hd; auto|].
        destruct (m =? _); intros [= <- _]; simpl; rewrite Hd; [auto|].
        split; [done|]. intros k' Hk. by rewrite lookup_insert_ne.
      * intros [= <- _]. rewrite Hd. auto.
    + intros [= <- _]. simpl. rewrite Hd. split; [done|].
      intros k' Hk. by rewrite lookup_insert_ne.
  - intros [= <- _]. rewrite Hd. auto.
Qed.

(** A key set with an expiration is still there [dt] later, within the time
    to live. *)
Lemma live_within_ttl r k (x : string) (expiration dt : Duration) (t0 : Time) :
  data r !! k = Some (x, expiry_of expiration t0) ->
  rnow r = t0 + dt ->
  within_ttl expiration dt ->
  live r k = Some x.
Proof.
  intros Hk Hn Httl. unfold live. rewrite Hk. unfold expiry_of, within_ttl in *.
  destruct ((expiration =? 0) || (expiration =? -1)) eqn:Hz; [reflexivity|].
  apply orb_false_iff in Hz as [H0 H1].
  destruct Httl as [->|[->|Hlt]]; [discriminate..|].
  rewrite Hn. destruct (Z.ltb_spec (t0 + dt) (t0 + px_millis expiration * 1000000));
    [reflexivity|lia].
Qed.

End MemRedisFacts.

(** ** DedupStage: alerts that are not resolved *)

Section DedupFiring.
Implicit Types (n : DedupStage) (a : AlertPtr) (w : World MemRedis).



End DedupFiring.

Lemma hashAlert_SentCount `{!XXHash} (x : types.Alert) (count : Z) :
  hashAlert (types.set_SentCount count x) = hashAlert x.
Proof. reflexivity. Qed.



(** ** DedupStage: resolved alerts *)




(** ** DedupStage: errors of the store *)

(** C4, as amended.  An error of [Exists] or of [SetNX] ends the turn of the
    alert: the alert is not let through, its hash is not put in [firing], no
    alert is written to and the context is left as it was.  An error of the
    [Get] of the stage does not: the stage of the alert is taken in its place,
    nothing is deleted, and [SetNX] decides.  An error of the [Get] of the
    counter or of [Incr] does not either: the alert is let through with its
    [SentCount] as it was.  In every case the loop goes on with the rest of
    the batch, and [Exec] returns a nil error. *)
Theorem DedupStage_store_errors (R : Type) (C : redis.Cmdable R)
        (n : DedupStage) (gkey : string) (ri : Duration) (v : DedupVars R)
        (a : AlertPtr) :
  let h := hash n (heap (dv_world v) a) in
  let sKey := stateKey gkey (recv n) h in
  let v' := dedup_body n gkey ri v a in
  (Resolved (dv_world v) a = true ->
   forall r1 e,
     redis.Exists (rdb (dv_world v)) sKey = (r1, redis.Err e) ->
     needsUpdateAlerts v' = needsUpdateAlerts v /\ firing v' = firing v /\
     heap (dv_world v') = heap (dv_world v) /\ dv_ctx v' = dv_ctx v) /\
  (Resolved (dv_world v) a = false ->
   forall r2 e,
     redis.SetNX (rdb (dedup_stage_check sKey a (dv_world v)).2) sKey
                 (types.Stage (heap (dv_world v) a)) ri = (r2, redis.Err e) ->
     needsUpdateAlerts v' = needsUpdateAlerts v /\ firing v' = firing v /\
     heap (dv_world v') = heap (dv_world v) /\ dv_ctx v' = dv_ctx v) /\
  (Resolved (dv_world v) a = false ->
   forall r1 e r2 nx,
     redis.Get (rdb (dv_world v)) sKey = (r1, redis.Err e) ->
     redis.SetNX r1 sKey (types.Stage (heap (dv_world v) a)) ri = (r2, nx) ->
     needsUpdateAlerts v' = needsUpdateAlerts v ++ (if set_ok nx then [a] else []) /\
     firing v' = firing v ++ (if set_ok nx then [h] else [])) /\
  (Resolved (dv_world v) a = true ->
   forall r1 ex r2 e,
     redis.Exists (rdb (dv_world v)) sKey = (r1, ex) ->
     exists_ok ex = true ->
     redis.GetInt64 r1 (AlertSentPrefix +:+ sKey) = (r2, redis.Err e) ->
     needsUpdateAlerts v' = needsUpdateAlerts v ++ [a] /\
     heap (dv_world v') = heap (dv_world v)) /\
  (Resolved (dv_world v) a = false ->
   forall r2 nx r3 e,
     redis.SetNX (rdb (dedup_stage_check sKey a (dv_world v)).2) sKey
                 (types.Stage (heap (dv_world v) a)) ri = (r2, nx) ->
     set_ok nx = true ->
     redis.Incr r2 (AlertSentPrefix +:+ sKey) = (r3, redis.Err e) ->
     needsUpdateAlerts v' = needsUpdateAlerts v ++ [a] /\
     firing v' = firing v ++ [h] /\
     heap (dv_world v') = heap (dv_world v)) /\
  (forall rest,
      dedup_loop n gkey ri (a :: rest) v = dedup_loop n gkey ri rest v') /\
  (forall ctx alerts w,
      GroupKey ctx = Some gkey ->
      RepeatInterval ctx = Some ri ->
      exists w' ctx' out,
        DedupStage_Exec n ctx alerts w = Some (w', (ctx', out, None))).
Proof.
  intros h sKey v'. split_and!.
  - intros Hres r1 e HE. subst v'. unfold dedup_body. rewrite Hres.
    fold h. fold sKey. unfold dedup_resolved. rewrite HE. auto.
  - intros Hres r2 e HNX. subst v'. unfold dedup_body. rewrite Hres.
    fold h. fold sKey. unfold dedup_firing.
    destruct (dedup_stage_check_frame sKey a (dv_world v)) as [Hheap _].
    destruct (dedup_stage_check sKey a (dv_world v)) as [stage w1]; simpl in *.
    rewrite Hheap, HNX. simpl. auto.
  - intros Hres r1 e r2 nx HG HNX.
    pose proof (dedup_stage_check_Get_error sKey a (dv_world v) r1 e HG) as Hchk.
    assert (HNX' : redis.SetNX (rdb (dedup_stage_check sKey a (dv_world v)).2) sKey
                     (types.Stage (heap (dv_world v) a)) ri = (r2, nx))
      by (rewrite Hchk; exact HNX).
    destruct (dedup_body_firing n gkey ri v a r2 nx Hres HNX') as (_ & Hn & Hf & _).
    auto.
  - intros Hres r1 ex r2 e HE Hex HG.
    destruct (dedup_body_resolved n gkey ri v a r1 ex Hres HE) as (_ & _ & Hn & Hok & _).
    destruct (Hok Hex r2 _ HG) as [_ Hh].
    fold v' in Hn. rewrite Hex in Hn. auto.
  - intros Hres r2 nx r3 e HNX Hset HI.
    destruct (dedup_body_firing n gkey ri v a r2 nx Hres HNX) as (_ & Hn & Hf & Hok & _).
    destruct (Hok Hset r3 _ HI) as [_ Hh].
    fold v' in Hn, Hf. rewrite Hset in Hn, Hf. auto.
  - reflexivity.
  - intros ctx alerts w Hg Hri. unfold DedupStage_Exec. rewrite Hg, Hri. eauto.
Qed.

(** The first command of the batch fails: alert 2, resolved, is skipped. *)
Lemma DedupStage_store_errors_witness :
  let v := dedup_start Sample.ctx
             (Sample.world (Sample.server ∅ [Some (New "i/o timeout")]) []) in
  let v' := dedup_body Sample.dedup "g1" 300000000000 v 2%nat in
  needsUpdateAlerts v' = needsUpdateAlerts v /\ firing v' = firing v /\
  heap (dv_world v') = heap (dv_world v) /\ dv_ctx v' = dv_ctx v.
Proof.
  intros v v'.
  apply (proj1 (DedupStage_store_errors MemRedis _ Sample.dedup "g1" 300000000000 v 2%nat)
               eq_refl (Sample.server ∅ []) (New "i/o timeout")).
  reflexivity.
Defined.

(** C4, as stated, fails for the read of the counter: the state key of the
    resolved alert 2 and its counter are on the server, [Exists] goes
    through, the [Get] of the counter fails, and the alert is let through
    all the same. *)
Lemma DedupStage_store_errors_counterexample :
  let r := Sample.server {[ Sample.key 2%nat := ("active", None);
                            AlertSentPrefix +:+ Sample.key 2%nat := ("3", None) ]}
                         [None; Some (New "i/o timeout")] in
  exists r1 r2 w' ctx',
    redis.Exists r (Sample.key 2%nat) = (r1, redis.Ok 1) /\
    redis.GetInt64 r1 (AlertSentPrefix +:+ Sample.key 2%nat) =
      (r2, redis.Err (New "i/o timeout")) /\
    DedupStage_Exec Sample.dedup Sample.ctx [2%nat] (Sample.world r []) =
      Some (w', (ctx', [2%nat], None)).
Proof.
  intros r. eexists _, _, _, _.
  split; [vm_compute; reflexivity|].
  split; vm_compute; reflexivity.
Qed.

(** ** RetryStage *)

Section RetryFacts.
Context {R : Type}.
Implicit Types (r : RetryStage) (w : World R) (rds : list Round).


(** The events of the loop: pairs of a tick and a call with [sent]; and the
    parts of the world that the loop leaves alone. *)
Lemma retry_loop_trace r (ctx : Context) (alerts sent : list AlertPtr) rds
      (i : Z) (iErr : option Error) w :
  exists evs,
    trace (retry_loop r ctx alerts sent rds i iErr w).1 = trace w ++ evs /\
    tick_then_notify (Name (integration r)) sent evs /\
    ctxErr (retry_loop r ctx alerts sent rds i iErr w).1 = ctxErr w /\
    rdb (retry_loop r ctx alerts sent rds i iErr w).1 = rdb w /\
    heap (retry_loop r ctx alerts sent rds i iErr w).1 = heap w.
Proof.
  revert i iErr w. induction rds as [|rd rest IH]; intros i iErr w; simpl.
  - exists []. rewrite app_nil_r. simpl. auto.
  - destruct (done_at_check rd); [exists []; rewrite app_nil_r; simpl; auto|].
    destruct (done_at_wait rd && negb (tick_wins rd));
      [exists []; rewrite app_nil_r; simpl; auto|].
    destruct (notify_ret rd) as [retry [e|]].
    + destruct retry; simpl.
      * match goal with |- context [retry_loop _ _ _ _ rest ?i' ?e' ?w'] =>
          destruct (IH i' e' w') as (evs & Ht & Hp & Hc & Hr & Hh);
          assert (Hw : trace w' = (trace w ++ [EvTick]) ++ [EvNotify (Name (integration r)) sent]
                       /\ ctxErr w' = ctxErr w /\ rdb w' = rdb w /\ heap w' = heap w)
            by (destruct (negb (done_at_return rd) && _); simpl; auto)
        end.
        destruct Hw as (Hw & Hc' & Hr' & Hh').
        exists (EvTick :: EvNotify (Name (integration r)) sent :: evs).
        rewrite Ht, Hw, Hc, Hr, Hh, <- !app_assoc. simpl. auto 10.
      * exists [EvTick; EvNotify (Name (integration r)) sent].
        rewrite <- app_assoc. simpl. auto 10.
    + exists [EvTick; EvNotify (Name (integration r)) sent].
      simpl. rewrite <- app_assoc. simpl. auto 10.
Qed.

(** The calls of the loop, counted against the attempts completed before
    the context is done. *)
Lemma retry_loop_calls r (ctx : Context) (alerts sent : list AlertPtr) rds
      (i : Z) (iErr : option Error) w (was_done : bool) (evs : list Event) :
  permanent was_done rds = true ->
  trace (retry_loop r ctx alerts sent rds i iErr w).1 = trace w ++ evs ->
  if was_done then calls evs = 0%nat
  else (attempts_before_done rds <= calls evs <= attempts_before_done rds + 1)%nat.
Proof.
  revert i iErr w was_done evs.
  induction rds as [|rd rest IH]; intros i iErr w was_done evs Hperm Htrace.
  - simpl in Htrace. rewrite <- (app_nil_r (trace w)) in Htrace at 1.
    apply app_inv_head in Htrace as <-. destruct was_done; unfold calls; simpl; lia.
  - simpl in Hperm. apply andb_prop in Hperm as [Hperm Hrest].
    apply andb_prop in Hperm as [Hperm H2]. apply andb_prop in Hperm as [H0 H1].
    simpl in Htrace.
    destruct (done_at_check rd) eqn:Hcheck.
    { simpl in H1. rewrite H1 in H2. simpl in H2.
      simpl in Htrace. rewrite <- (app_nil_r (trace w)) in Htrace at 1.
      apply app_inv_head in Htrace as <-.
      destruct was_done; unfold calls; simpl; [reflexivity|]. rewrite H2. simpl. lia. }
    assert (was_done = false) as -> by (destruct was_done; [discriminate H0|reflexivity]).
    destruct (done_at_wait rd && negb (tick_wins rd)) eqn:Hwait.
    { apply andb_prop in Hwait as [Hwait _]. rewrite Hwait in H2. simpl in H2.
      simpl in Htrace. rewrite <- (app_nil_r (trace w)) in Htrace at 1.
      apply app_inv_head in Htrace as <-. unfold calls. simpl. rewrite H2. simpl. lia. }
    destruct (notify_ret rd) as [retry [e|]] eqn:Hret.
    + destruct retry; simpl in Htrace.
      * match type of Htrace with
        | trace (retry_loop _ _ _ _ rest ?i' ?e' ?w').1 = _ =>
            destruct (retry_loop_trace r ctx alerts sent rest i' e' w')
              as (evs' & Ht & _);
            assert (Hw : trace w' = trace w ++ [EvTick; EvNotify (Name (integration r)) sent])
              by (destruct (negb (done_at_return rd) && _); simpl;
                  rewrite <- app_assoc; reflexivity);
            specialize (IH i' e' w' (done_at_return rd) evs' Hrest Ht)
        end.
        rewrite Ht, Hw, <- app_assoc in Htrace.
        apply app_inv_head in Htrace as <-.
        simpl. rewrite Hret.
        destruct (done_at_return rd); unfold calls in *; simpl; lia.
      * rewrite <- app_assoc in Htrace. apply app_inv_head in Htrace as <-.
        simpl. rewrite Hret. destruct (done_at_return rd); simpl; unfold calls; simpl; lia.
    + simpl in Htrace. rewrite <- app_assoc in Htrace.
      apply app_inv_head in Htrace as <-.
      simpl. rewrite Hret.
      destruct (done_at_return rd); destruct retry; simpl; unfold calls; simpl; lia.
Qed.

(** A round that finds the context done at its first select ends the loop
    with no event: the events are those of the rounds before it. *)
Lemma retry_loop_done_at_check r (ctx : Context) (alerts sent : list AlertPtr)
      (pre post : list Round) (rd : Round) (i : Z) (iErr : option Error) w :
  done_at_check rd = true ->
  trace (retry_loop r ctx alerts sent (pre ++ rd :: post) i iErr w).1 =
  trace (retry_loop r ctx alerts sent pre i iErr w).1.
Proof.
  intros Hcheck. revert i iErr w.
  induction pre as [|rd0 pre IH]; intros i iErr w; simpl.
  - rewrite Hcheck. reflexivity.
  - destruct (done_at_check rd0); [reflexivity|].
    destruct (done_at_wait rd0 && negb (tick_wins rd0)); [reflexivity|].
    destruct (notify_ret rd0) as [retry [e|]]; [|reflexivity].
    destruct retry; [apply IH|reflexivity].
Qed.

(** [errors.Cause] sees through the two wraps of the loop. *)
Lemma Cause_wrapped r (e : Error) (i : Z) :
  Cause (canceled r e i) = Cause e /\ Cause (unrecoverable r e i) = Cause e.
Proof. split; reflexivity. Qed.

Lemma last_error_cons (iErr : option Error) (rd : Round) (pre : list Round) :
  last_error iErr (rd :: pre) = last_error (snd (notify_ret rd)) pre.
Proof.
  unfold last_error. destruct pre as [|rd0 pre]; [reflexivity|].
  change (last (rd :: rd0 :: pre)) with (last (rd0 :: pre)).
  destruct (last (rd0 :: pre)) eqn:Hlast; [reflexivity|].
  apply last_None in Hlast. discriminate.
Qed.

(** At most one call for each round. *)
Lemma retry_loop_calls_rounds r (ctx : Context) (alerts sent : list AlertPtr) rds
      (i : Z) (iErr : option Error) w (evs : list Event) :
  trace (retry_loop r ctx alerts sent rds i iErr w).1 = trace w ++ evs ->
  (calls evs <= length rds)%nat.
Proof.
  revert i iErr w evs.
  induction rds as [|rd rest IH]; intros i iErr w evs Htrace; simpl in Htrace.
  - rewrite <- (app_nil_r (trace w)) in Htrace at 1.
    apply app_inv_head in Htrace as <-. unfold calls. simpl. lia.
  - destruct (done_at_check rd).
    { simpl in Htrace. rewrite <- (app_nil_r (trace w)) in Htrace at 1.
      apply app_inv_head in Htrace as <-. unfold calls. simpl. lia. }
    destruct (done_at_wait rd && negb (tick_wins rd)).
    { simpl in Htrace. rewrite <- (app_nil_r (trace w)) in Htrace at 1.
      apply app_inv_head in Htrace as <-. unfold calls. simpl. lia. }
    destruct (notify_ret rd) as [retry [e|]].
    + destruct retry; simpl in Htrace.
      * match type of Htrace with
        | trace (retry_loop _ _ _ _ rest ?i' ?e' ?w').1 = _ =>
            destruct (retry_loop_trace r ctx alerts sent rest i' e' w')
              as (evs' & Ht & _);
            assert (Hw : trace w' = trace w ++ [EvTick; EvNotify (Name (integration r)) sent])
              by (destruct (negb (done_at_return rd) && _); simpl;
                  rewrite <- app_assoc; reflexivity);
            specialize (IH i' e' w' evs' Ht)
        end.
        rewrite Ht, Hw, <- app_assoc in Htrace.
        apply app_inv_head in Htrace as <-.
        unfold calls in *. simpl. lia.
      * rewrite <- app_assoc in Htrace. apply app_inv_head in Htrace as <-.
        unfold calls. simpl. lia.
    + simpl in Htrace. rewrite <- app_assoc in Htrace.
      apply app_inv_head in Htrace as <-. unfold calls. simpl. lia.
Qed.

(** The ways out of the loop. *)
Lemma retry_loop_exits r (ctx : Context) (alerts sent : list AlertPtr) rds
      (i : Z) (iErr : option Error) w (w' : World R) (res : StageResult) :
  retry_loop r ctx alerts sent rds i iErr w = (w', Some res) ->
  exists pre rd post,
    rds = pre ++ rd :: post /\
    Forall retried pre /\
    rounds w' = post /\
    let N := i + Z.of_nat (length pre) + 1 in
    let last := last_error iErr pre in
    (ticks rd = true /\ snd (notify_ret rd) = None /\
     res = (ctx, alerts, None)) \/
    (ticks rd = true /\
     exists e, notify_ret rd = (false, Some e) /\
               res = (ctx, alerts, Some (unrecoverable r e N))) \/
    (ticks rd = false /\
     res = (ctx, [], Some (canceled r (default (ctxErr w) last) N))).
Proof.
  revert i iErr w. induction rds as [|rd rest IH]; intros i iErr w; simpl.
  - discriminate.
  - destruct (done_at_check rd) eqn:Hcheck.
    { intros [= <- <-]. exists [], rd, rest. split_and!; try done.
      right. right. unfold ticks. rewrite Hcheck. simpl.
      rewrite Z.add_0_r. auto. }
    destruct (done_at_wait rd && negb (tick_wins rd)) eqn:Hwait.
    { intros [= <- <-]. exists [], rd, rest. split_and!; try done.
      right. right. unfold ticks. rewrite Hcheck, Hwait. simpl.
      rewrite Z.add_0_r. auto. }
    assert (Hticks : ticks rd = true) by (unfold ticks; rewrite Hcheck, Hwait; reflexivity).
    destruct (notify_ret rd) as [retry [e|]] eqn:Hret.
    + destruct retry; simpl.
      * intros Hloop.
        match type of Hloop with
        | retry_loop _ _ _ _ rest ?i' ?e' ?w' = _ =>
            assert (Hc : ctxErr w' = ctxErr w)
              by (destruct (negb (done_at_return rd) && _); reflexivity)
        end.
        apply IH in Hloop as (pre & rd' & post & -> & Hpre & Hpost & Hways).
        exists (rd :: pre), rd', post. split_and!; try done.
        { constructor; [|exact Hpre]. split; [exact Hticks|eauto]. }
        rewrite Hc in Hways. simpl length. rewrite last_error_cons, Hret. simpl snd.
        replace (i + Z.of_nat (S (length pre)) + 1) with (i + 1 + Z.of_nat (length pre) + 1) by lia.
        exact Hways.
      * intros [= <- <-]. exists [], rd, rest. split_and!; try done.
        right. left. split; [exact Hticks|]. exists e. simpl. rewrite Z.add_0_r. auto.
    + intros [= <- <-]. exists [], rd, rest. split_and!; try done.
      left. rewrite Hret. auto.
Qed.

End RetryFacts.



(** C6.  The events of [exec] come in pairs, a tick received and then a
    call of [Notify], so no call is made before the first tick.  A round
    that finds the context done at its first select ends the run without a
    call: the events of the run are those of the rounds before it, at most
    one call for each.  And with a context that stays done once it is done,
    the calls are at most the attempts completed before the context is done
    plus one, and, once past the pre-filter, at least those attempts. *)
Theorem RetryStage_exec_checks_context_first (R : Type) (r : RetryStage)
        (ctx : Context) (alerts : list AlertPtr) (w : World R) :
  exists sent evs,
    trace (RetryStage_exec r ctx alerts w).1 = trace w ++ evs /\
    tick_then_notify (Name (integration r)) sent evs /\
    (rounds w = [] -> evs = []) /\
    (forall pre rd post,
        rounds w = pre ++ rd :: post ->
        done_at_check rd = true ->
        (calls evs <= length pre)%nat /\
        forall sent',
          prefilter r ctx alerts w = Send sent' ->
          trace (RetryStage_exec r ctx alerts w).1 =
          trace (retry_loop r ctx alerts sent' pre 0 None w).1) /\
    (permanent false (rounds w) = true ->
     (calls evs <= attempts_before_done (rounds w) + 1)%nat /\
     forall sent',
       prefilter r ctx alerts w = Send sent' ->
       (attempts_before_done (rounds w) <= calls evs)%nat).
Proof.
  unfold RetryStage_exec.
  destruct (prefilter r ctx alerts w) as [res|sent] eqn:Hpre.
  - exists [], []. simpl. rewrite app_nil_r. split_and!; try done.
    + intros pre rd post _ _. split; [unfold calls; simpl; lia|discriminate].
    + intros _. split; [unfold calls; simpl; lia|discriminate].
  - destruct (retry_loop_trace r ctx alerts sent (rounds w) 0 None w)
      as (evs & Ht & Hp & _).
    exists sent, evs. split_and!; try done.
    + intros Hnil. rewrite Hnil in Ht. simpl in Ht.
      rewrite <- (app_nil_r (trace w)) in Ht at 1.
      apply app_inv_head in Ht. congruence.
    + intros pre rd post Hrds Hcheck.
      pose proof (retry_loop_done_at_check r ctx alerts sent pre post rd 0 None w Hcheck)
        as Hsame.
      rewrite <- Hrds in Hsame. split.
      * apply (retry_loop_calls_rounds r ctx alerts sent pre 0 None w).
        rewrite <- Hsame. exact Ht.
      * intros sent' [= <-]. exact Hsame.
    + intros Hperm.
      pose proof (retry_loop_calls r ctx alerts sent (rounds w) 0 None w false evs Hperm Ht)
        as [Hlo Hhi].
      split; [exact Hhi|]. intros _ _. exact Hlo.
Qed.

(** Two attempts fail with an error that can be retried, the deadline
    passes during the second, and the third round finds the context done:
    two calls, one attempt completed before the context was done. *)
Lemma RetryStage_exec_checks_context_first_witness :
  let late : Round :=
    {| done_at_check := false; done_at_wait := false; tick_wins := true;
       notify_ret := (true, Some (New "timeout")); done_at_return := true |} in
  let w := Sample.world tt [Sample.attempt (true, Some (New "timeout")); late;
                            Sample.expired] in
  exists evs,
    trace (RetryStage_exec (Sample.retry true) Sample.ctx [0%nat] w).1 = trace w ++ evs /\
    (calls evs <= 2)%nat.
Proof.
  intros late w.
  destruct (RetryStage_exec_checks_context_first unit (Sample.retry true)
              Sample.ctx [0%nat] w) as (sent & evs & Ht & _ & _ & _ & Hbound).
  exists evs. split; [exact Ht|].
  apply (proj1 (Hbound eq_refl)).
Defined.

(** C7, as amended.  When [exec] returns, either its pre-filter has returned,
    with [firing alerts missing] or with the input and a nil error, or the
    loop has, after some rounds in which [Notify] failed with an error that
    can be retried, in one of three ways: in a round where [Notify]
    succeeds, with the input alerts and a nil error; in a round where
    [Notify] fails with an error that cannot be retried, with the input
    alerts and that error wrapped; in a round where the done channel of the
    context is taken, with nil alerts and, wrapped in [notify retry canceled
    after N attempts], the error of the round before if there is one and
    the error of the context otherwise, [N] being the number of that round. *)
Theorem RetryStage_exec_exits (R : Type) (r : RetryStage) (ctx : Context)
        (alerts : list AlertPtr) (w w' : World R) (res : StageResult) :
  RetryStage_exec r ctx alerts w = (w', Some res) ->
  (prefilter r ctx alerts w = Return res /\ w' = w /\
   (res = (ctx, [], Some (New "firing alerts missing")) \/
    res = (ctx, alerts, None))) \/
  ((exists sent, prefilter r ctx alerts w = Send sent) /\
   three_ways r ctx alerts res /\
   exists pre rd post,
     rounds w = pre ++ rd :: post /\
     Forall retried pre /\
     rounds w' = post /\
     let N := Z.of_nat (length pre) + 1 in
     (ticks rd = true /\ snd (notify_ret rd) = None /\
      res = (ctx, alerts, None)) \/
     (ticks rd = true /\
      exists e, notify_ret rd = (false, Some e) /\
                res = (ctx, alerts, Some (unrecoverable r e N))) \/
     (ticks rd = false /\
      res = (ctx, [],
             Some (canceled r (default (ctxErr w) (last_error None pre)) N)))).
Proof.
  unfold RetryStage_exec.
  destruct (prefilter r ctx alerts w) as [res0|sent] eqn:Hpre.
  - intros [= <- <-]. left. split_and!; try done.
    unfold prefilter in Hpre.
    destruct (negb (SendResolved (integration r))); [|discriminate].
    destruct (FiringAlerts ctx) as [firing|]; [|injection Hpre as <-; auto].
    destruct (length firing =? 0)%nat; [injection Hpre as <-; auto|discriminate].
  - intros Hloop. right. split; [eauto|].
    apply retry_loop_exits in Hloop
      as (pre & rd & post & Hrds & Hretried & Hpost & Hways).
    split.
    + destruct Hways as [(_ & _ & ->)|[(_ & e & _ & ->)|(_ & ->)]];
        unfold three_ways; eauto 6.
    + exists pre, rd, post. split_and!; try done.
Qed.

(** The first attempt fails with a timeout that can be retried, and the next
    round finds the context done: the stage returns the timeout, wrapped. *)
Lemma RetryStage_exec_exits_witness :
  let w := Sample.world tt [Sample.attempt (true, Some (New "timeout"));
                            Sample.expired] in
  let res : StageResult :=
    (Sample.ctx, [],
     Some (Wrap (New "timeout")
                "ops/webhook[0]: notify retry canceled after 2 attempts")) in
  exists w',
    RetryStage_exec (Sample.retry true) Sample.ctx [0%nat] w = (w', Some res) /\
    three_ways (Sample.retry true) Sample.ctx [0%nat] res.
Proof.
  intros w res. eexists. split; [reflexivity|].
  refine (match RetryStage_exec_exits unit (Sample.retry true) Sample.ctx
                  [0%nat] w _ res eq_refl with
          | or_introl (conj Hpre _) => _
          | or_intror (conj _ (conj Hways _)) => Hways
          end).
  discriminate Hpre.
Defined.

(** C7, as stated, fails: with [SendResolved()] false and no [FiringAlerts]
    in the context, the stage returns in none of the three ways. *)
Lemma RetryStage_exec_exits_counterexample :
  let w := Sample.world tt [Sample.attempt (false, None)] in
  exists res,
    RetryStage_exec (Sample.retry false) ∅ [0%nat] w = (w, Some res) /\
    ~ three_ways (Sample.retry false) ∅ [0%nat] res.
Proof.
  intros w. eexists. split; [reflexivity|].
  intros [Hres|[(e & N & Hres)|(cause & N & Hres)]]; discriminate Hres.
Qed.

(** ** The scenarios of the specification, run *)

(** S2: the first delivery of the firing alert 0.  The state key holds the
    stage with a time to live of five minutes, the counter is 1 and so is
    [SentCount]. *)
Example scenario_first_delivery :
  let w1 := Sample.first_call.1 in
  Sample.first_call.2 = (WithResolvedAlerts
                           (WithFiringAlerts (WithRuleUID Sample.ctx "rule-1")
                                             [hash Sample.dedup Sample.cpu]) [],
                         [0%nat], None) /\
  data (rdb w1) = {[ Sample.key 0%nat := ("active", Some 300000000000);
                     AlertSentPrefix +:+ Sample.key 0%nat := ("1", None) ]} /\
  types.SentCount (heap w1 0%nat) = 1.
Proof. vm_compute. auto. Qed.

(** S4: the same alert comes back in another stage twenty seconds later.
    The key is deleted and set again, and the counter goes to 2. *)
Example scenario_stage_transition :
  let secondary : types.Alert :=
    {| types.Labels := types.Labels Sample.cpu; types.EndsAt := types.EndsAt Sample.cpu;
       types.Stage := "secondary"; types.RuleUID := "rule-1"; types.SentCount := 1 |} in
  let w1 := later 20000000000 [] Sample.first_call.1 in
  let w2 := set_heap (store (heap w1) 0%nat secondary) w1 in
  exists w3 ctx3,
    DedupStage_Exec Sample.dedup Sample.ctx [0%nat] w2 = Some (w3, (ctx3, [0%nat], None)) /\
    data (rdb w3) = {[ Sample.key 0%nat := ("secondary", Some 320000000000);
                       AlertSentPrefix +:+ Sample.key 0%nat := ("2", None) ]} /\
    types.SentCount (heap w3 0%nat) = 2.
Proof. eexists _, _. vm_compute. auto. Qed.

(** S5: two attempts fail with the same error that can be retried, the third
    succeeds.  Three calls, one warning, and the input back with a nil
    error. *)
Example scenario_retry_to_success :
  let reset := New "connection reset" in
  let w := Sample.world tt [Sample.attempt (true, Some reset);
                            Sample.attempt (true, Some reset);
                            Sample.attempt (false, None)] in
  let '(w', res) := RetryStage_exec (Sample.retry true) Sample.ctx [0%nat] w in
  res = Some (Sample.ctx, [0%nat], None) /\
  calls (trace w') = 3%nat /\
  logs w' = [ {| lvl := LvlWarn; msg := "Notify attempt failed, will retry later" |};
              {| lvl := LvlInfo; msg := "Notify success" |} ].
Proof. vm_compute. auto. Qed.


(** * Further properties *)

(** ** Context carriers *)

(** X1.  Each accessor reads back what its [With] has stored, whatever the
    context held before, and a [With] leaves every other key as it was:
    without its own key the context is the same. *)
Theorem carriers_round_trip (ctx : Context) :
  (forall v, RuleUID (WithRuleUID ctx v) = Some v) /\
  (forall v, ReceiverName (WithReceiverName ctx v) = Some v) /\
  (forall v, GroupKey (WithGroupKey ctx v) = Some v) /\
  (forall v, FiringAlerts (WithFiringAlerts ctx v) = Some v) /\
  (forall v, ResolvedAlerts (WithResolvedAlerts ctx v) = Some v) /\
  (forall v, GroupLabels (WithGroupLabels ctx v) = Some v) /\
  (forall v, Now (WithNow ctx v) = Some v) /\
  (forall v, RepeatInterval (WithRepeatInterval ctx v) = Some v) /\
  (forall v, MuteTimeIntervalNames (WithMuteTimeIntervals ctx v) = Some v) /\
  (forall v, ActiveTimeIntervalNames (WithActiveTimeIntervals ctx v) = Some v) /\
  (forall v, delete keyRuleUID (WithRuleUID ctx v) = delete keyRuleUID ctx) /\
  (forall v, delete keyReceiverName (WithReceiverName ctx v) =
             delete keyReceiverName ctx) /\
  (forall v, delete keyGroupKey (WithGroupKey ctx v) = delete keyGroupKey ctx) /\
  (forall v, delete keyFiringAlerts (WithFiringAlerts ctx v) =
             delete keyFiringAlerts ctx) /\
  (forall v, delete keyResolvedAlerts (WithResolvedAlerts ctx v) =
             delete keyResolvedAlerts ctx) /\
  (forall v, delete keyGroupLabels (WithGroupLabels ctx v) =
             delete keyGroupLabels ctx) /\
  (forall v, delete keyNow (WithNow ctx v) = delete keyNow ctx) /\
  (forall v, delete keyRepeatInterval (WithRepeatInterval ctx v) =
             delete keyRepeatInterval ctx) /\
  (forall v, delete keyMuteTimeIntervals (WithMuteTimeIntervals ctx v) =
             delete keyMuteTimeIntervals ctx) /\
  (forall v, delete keyActiveTimeIntervals (WithActiveTimeIntervals ctx v) =
             delete keyActiveTimeIntervals ctx).
Proof.
  unfold RuleUID, ReceiverName, GroupKey, FiringAlerts, ResolvedAlerts,
    GroupLabels, Now, RepeatInterval, MuteTimeIntervalNames,
    ActiveTimeIntervalNames, WithRuleUID, WithReceiverName, WithGroupKey,
    WithFiringAlerts, WithResolvedAlerts, WithGroupLabels, WithNow,
    WithRepeatInterval, WithMuteTimeIntervals, WithActiveTimeIntervals.
  split_and!; intros v;
    first [rewrite lookup_insert_eq; reflexivity | apply delete_insert_eq].
Qed.

(** ** MuteStage *)

Section MuteFacts.
Context {R : Type}.
Implicit Types (muter : gmap string string -> bool) (w : World R).

(** X2.  [MuteStage] keeps, in their order, exactly the alerts whose labels the
    muter does not mute, with no error and the world as it was; a second run
    on what it returns changes nothing; and two mute stages in a row keep the
    same alerts in either order. *)
Theorem MuteStage_filters muter (ctx : Context) (alerts : list AlertPtr) w :
  exists out,
    MuteStage_Exec muter ctx alerts w = Some (w, (ctx, out, None)) /\
    out `sublist_of` alerts /\
    (forall a, In a out <-> In a alerts /\ muter (types.Labels (heap w a)) = false) /\
    MuteStage_Exec muter ctx out w = Some (w, (ctx, out, None)) /\
    forall muter',
      MultiStage_Exec [MuteStage_Exec muter; MuteStage_Exec muter'] ctx alerts w =
      MultiStage_Exec [MuteStage_Exec muter'; MuteStage_Exec muter] ctx alerts w.
Proof.
  assert (HE : forall m l, MuteStage_Exec m ctx l w =
                           Some (w, (ctx, List.filter (not_muted w m) l, None)))
    by reflexivity.
  exists (List.filter (not_muted w muter) alerts). split_and!.
  - apply HE.
  - induction alerts as [|a alerts IH]; cbn [List.filter]; [constructor|].
    destruct (not_muted w muter a); [by constructor|by apply sublist_cons].
  - intros a. rewrite filter_In. unfold not_muted. rewrite negb_true_iff. reflexivity.
  - assert (Hid : List.filter (not_muted w muter)
                              (List.filter (not_muted w muter) alerts) =
                  List.filter (not_muted w muter) alerts).
    { induction alerts as [|a alerts IH]; cbn [List.filter]; [reflexivity|].
      destruct (not_muted w muter a) eqn:Ha; cbn [List.filter]; [rewrite Ha, IH|]; done. }
    rewrite HE, Hid. reflexivity.
  - intros muter'.
    assert (Hswap : List.filter (not_muted w muter')
                                (List.filter (not_muted w muter) alerts) =
                    List.filter (not_muted w muter)
                                (List.filter (not_muted w muter') alerts)).
    { induction alerts as [|a alerts IH]; cbn [List.filter]; [reflexivity|].
      destruct (not_muted w muter a) eqn:Ha, (not_muted w muter' a) eqn:Hb;
        cbn [List.filter]; rewrite ?Ha, ?Hb, IH; reflexivity. }
    destruct alerts as [|a0 alerts0]; [reflexivity|].
    rewrite !MultiStage_Exec_cons, !HE.
    destruct (List.filter (not_muted w muter) (a0 :: alerts0)) as [|b l] eqn:H1;
      destruct (List.filter (not_muted w muter') (a0 :: alerts0)) as [|b' l'] eqn:H2.
    + reflexivity.
    + rewrite MultiStage_Exec_cons, HE, <- Hswap. reflexivity.
    + rewrite MultiStage_Exec_cons, HE, Hswap. reflexivity.
    + rewrite !MultiStage_Exec_cons, !HE, Hswap. reflexivity.
Qed.

End MuteFacts.

(** ** MultiStage *)

Section MultiStageMore.
Context {R : Type}.
Implicit Types (ms : list (Stage R)) (w : World R).

Lemma MultiStage_Exec_no_alerts ms (ctx : Context) w :
  MultiStage_Exec ms ctx [] w = Some (w, (ctx, [], None)).
Proof. destruct ms; reflexivity. Qed.

(** What comes with an error is nil. *)
Lemma MultiStage_Exec_error_nil ms (ctx ctx' : Context)
      (alerts alerts' : list AlertPtr) w (w' : World R) (e : Error) :
  MultiStage_Exec ms ctx alerts w = Some (w', (ctx', alerts', Some e)) ->
  alerts' = [].
Proof.
  revert ctx alerts w. induction ms as [|s ms IH]; intros ctx alerts w.
  - discriminate.
  - destruct alerts as [|a alerts]; [discriminate|].
    rewrite MultiStage_Exec_cons.
    destruct (s ctx (a :: alerts) w) as [[w1 [[ctx1 alerts1] [e1|]]]|];
      [congruence|apply IH|discriminate].
Qed.

Lemma MultiStage_Exec_app ms1 ms2 (ctx : Context) (alerts : list AlertPtr) w :
  MultiStage_Exec (ms1 ++ ms2) ctx alerts w =
  match MultiStage_Exec ms1 ctx alerts w with
  | None => None
  | Some (w', (ctx', _, Some e)) => Some (w', (ctx', [], Some e))
  | Some (w', (ctx', alerts', None)) => MultiStage_Exec ms2 ctx' alerts' w'
  end.
Proof.
  revert ctx alerts w. induction ms1 as [|s ms1 IH]; intros ctx alerts w.
  - reflexivity.
  - destruct alerts as [|a alerts].
    + simpl. rewrite MultiStage_Exec_no_alerts. reflexivity.
    + change ((s :: ms1) ++ ms2) with (s :: (ms1 ++ ms2)).
      rewrite !MultiStage_Exec_cons.
      destruct (s ctx (a :: alerts) w) as [[w1 [[ctx1 alerts1] [e1|]]]|];
        [reflexivity|apply IH|reflexivity].
Qed.

(** X3.  A [MultiStage] of two lists of stages, one after the other, is the
    [MultiStage] of the two [MultiStage]s: nesting changes nothing. *)
Theorem MultiStage_flatten ms1 ms2 (ctx : Context) (alerts : list AlertPtr) w :
  MultiStage_Exec (ms1 ++ ms2) ctx alerts w =
  MultiStage_Exec [MultiStage_Exec ms1; MultiStage_Exec ms2] ctx alerts w.
Proof.
  rewrite MultiStage_Exec_app.
  destruct alerts as [|a alerts].
  - rewrite !MultiStage_Exec_no_alerts. reflexivity.
  - rewrite (MultiStage_Exec_cons [MultiStage_Exec ms2] (MultiStage_Exec ms1)).
    destruct (MultiStage_Exec ms1 ctx (a :: alerts) w)
      as [[w1 [[ctx1 alerts1] [e1|]]]|]; [reflexivity| |reflexivity].
    destruct alerts1 as [|a1 alerts1]; [by rewrite !MultiStage_Exec_no_alerts|].
    rewrite MultiStage_Exec_cons.
    destruct (MultiStage_Exec ms2 ctx1 (a1 :: alerts1) w1)
      as [[w2 [[ctx2 alerts2] [e2|]]]|] eqn:H2; try reflexivity.
    apply MultiStage_Exec_error_nil in H2 as ->. reflexivity.
Qed.

(** X4.  A [MultiStage] stops at the first stage that returns an error or an
    empty batch: the stages after it are not run, and the alerts returned
    are nil. *)
Theorem MultiStage_short_circuit ms1 ms2 (X : Stage R) (ctx ctx1 ctx2 : Context)
        (alerts alerts1 alerts2 : list AlertPtr) w (w1 w2 : World R)
        (err : option Error) :
  MultiStage_Exec ms1 ctx alerts w = Some (w1, (ctx1, alerts1, None)) ->
  alerts1 <> [] ->
  X ctx1 alerts1 w1 = Some (w2, (ctx2, alerts2, err)) ->
  err <> None \/ alerts2 = [] ->
  MultiStage_Exec (ms1 ++ X :: ms2) ctx alerts w = Some (w2, (ctx2, [], err)).
Proof.
  intros H1 Hne HX Hstop.
  rewrite MultiStage_Exec_app, H1.
  destruct alerts1 as [|a1 alerts1]; [congruence|].
  rewrite MultiStage_Exec_cons, HX.
  destruct err as [e|]; [reflexivity|].
  destruct Hstop as [Hstop| ->]; [congruence|].
  apply MultiStage_Exec_no_alerts.
Qed.

End MultiStageMore.

(** The time-mute stage finds the batch inside [night] and empties it: the
    stage that knows no route, which would fail, is not run. *)
Lemma MultiStage_short_circuit_witness :
  let ctx := WithNow (WithMuteTimeIntervals ∅ ["night"]) 5 in
  let w := Sample.world tt [] in
  MultiStage_Exec ([MuteStage_Exec (fun _ => false)] ++
                   TimeMuteStage_Exec Sample.night_only :: [Sample.no_route])
                  ctx [0%nat] w =
  Some (Log LvlDebug "Notifications not sent, route is within mute time" w,
        (ctx, [], None)).
Proof.
  intros ctx w.
  apply (MultiStage_short_circuit [MuteStage_Exec (fun _ => false)]
           [Sample.no_route] (TimeMuteStage_Exec Sample.night_only)
           ctx ctx ctx [0%nat] [0%nat] [] w w).
  - reflexivity.
  - discriminate.
  - reflexivity.
  - right. reflexivity.
Defined.

(** ** FanoutStage *)

Section FanoutMore.
Context {R : Type}.
Implicit Types (fs : list (Stage R)) (w : World R).





End FanoutMore.


(** ** Time intervals *)

Section TimeMore.
Context {R : Type} {TI : Type} `{!TimeIntervalOps TI}.
Implicit Types (intervals : gmap string (list TI)) (names : list string).

Lemma inTimeIntervals_quiet (now : Time) intervals names :
  quiet now intervals names -> inTimeIntervals now intervals names = (false, None).
Proof.
  induction 1 as [|n names [iv [Hn Hq]] _ IH]; simpl; [reflexivity|].
  rewrite Hn, Hq. exact IH.
Qed.

Lemma inTimeIntervals_hit (now : Time) intervals (pre post : list string)
      (name : string) (interval : list TI) :
  quiet now intervals pre ->
  intervals !! name = Some interval ->
  existsb (fun ti => ContainsTime ti (UTC now)) interval = true ->
  inTimeIntervals now intervals (pre ++ name :: post) = (true, None).
Proof.
  intros Hpre Hname Hin. induction Hpre as [|n pre [iv [Hn Hq]] _ IH]; simpl.
  - rewrite Hname, Hin. reflexivity.
  - rewrite Hn, Hq. exact IH.
Qed.

(** The three cases of a list of names, each with what [inTimeIntervals]
    returns in it. *)
Lemma inTimeIntervals_cases (now : Time) intervals names :
  (quiet now intervals names /\
   inTimeIntervals now intervals names = (false, None)) \/
  (exists pre name post interval,
      names = pre ++ name :: post /\ quiet now intervals pre /\
      intervals !! name = Some interval /\
      existsb (fun ti => ContainsTime ti (UTC now)) interval = true /\
      inTimeIntervals now intervals names = (true, None)) \/
  (exists pre name post,
      names = pre ++ name :: post /\ quiet now intervals pre /\
      intervals !! name = None /\
      inTimeIntervals now intervals names =
      (false, Some (New ("time interval " +:+ name +:+ " doesn't exist in config")))).
Proof.
  induction names as [|n names IH].
  - left. split; [constructor|reflexivity].
  - destruct (intervals !! n) as [iv|] eqn:Hn.
    + destruct (existsb (fun ti => ContainsTime ti (UTC now)) iv) eqn:Hq.
      * right. left. exists [], n, names, iv. simpl. rewrite Hn, Hq.
        split_and!; try done. constructor.
      * assert (Hqn : quiet now intervals [n]) by (repeat constructor; eauto).
        destruct IH as [[Hquiet Hres]|[(pre & name & post & interval & -> & Hpre & Hname & Hin & Hres)
                                       |(pre & name & post & -> & Hpre & Hname & Hres)]].
        -- left. simpl. rewrite Hn, Hq. split; [|exact Hres].
           constructor; eauto.
        -- right. left. exists (n :: pre), name, post, interval.
           simpl. rewrite Hn, Hq. split_and!; try done. constructor; eauto.
        -- right. right. exists (n :: pre), name, post.
           simpl. rewrite Hn, Hq. split_and!; try done. constructor; eauto.
    + right. right. exists [], n, names. simpl. rewrite Hn.
      split_and!; try done. constructor.
Qed.

(** X6.  What [inTimeIntervals] returns, read off the names in their order: false
    when every name is in the table with no interval around [now]; true when
    the first name that is not so has an interval around [now]; the error
    when the first name that is not so is absent from the table.  With the
    error comes false. *)
Theorem inTimeIntervals_verdict (now : Time) intervals names :
  (inTimeIntervals now intervals names = (false, None) <->
   quiet now intervals names) /\
  (inTimeIntervals now intervals names = (true, None) <->
   exists pre name post interval,
     names = pre ++ name :: post /\ quiet now intervals pre /\
     intervals !! name = Some interval /\
     existsb (fun ti => ContainsTime ti (UTC now)) interval = true) /\
  (forall e,
      snd (inTimeIntervals now intervals names) = Some e <->
      exists pre name post,
        names = pre ++ name :: post /\ quiet now intervals pre /\
        intervals !! name = None /\
        e = New ("time interval " +:+ name +:+ " doesn't exist in config")) /\
  (forall e, inTimeIntervals now intervals names <> (true, Some e)).
Proof.
  pose proof (inTimeIntervals_cases now intervals names) as Hcases.
  split_and!.
  - split; [|apply inTimeIntervals_quiet].
    destruct Hcases as [[Hq _]|[(? & ? & ? & ? & _ & _ & _ & _ & ->)
                               |(? & ? & ? & _ & _ & _ & ->)]];
      [done|discriminate..].
  - split.
    + destruct Hcases as [[_ ->]|[(pre & name & post & iv & ? & ? & ? & ? & _)
                                 |(? & ? & ? & _ & _ & _ & ->)]];
        [discriminate|eauto 10|discriminate].
    + intros (pre & name & post & iv & -> & Hpre & Hname & Hin).
      eapply inTimeIntervals_hit; eauto.
  - intros e. split.
    + destruct Hcases as [[_ ->]|[(? & ? & ? & ? & _ & _ & _ & _ & ->)
                                 |(pre & name & post & ? & ? & ? & ->)]];
        [discriminate..|].
      intros [= <-]. eauto 10.
    + intros (pre & name & post & -> & Hpre & Hname & ->).
      rewrite (inTimeIntervals_first_absent _ _ _ _ _ Hpre Hname). reflexivity.
  - intros e.
    destruct Hcases as [[_ ->]|[(? & ? & ? & ? & _ & _ & _ & _ & ->)
                               |(? & ? & ? & _ & _ & _ & ->)]]; discriminate.
Qed.

(** X7.  On the same names, not empty, and with [Now] in the context, the two
    stages are opposite: where [inTimeIntervals] returns no error, one of
    them returns the input and the other the empty batch.  On an empty list
    of names they differ: [TimeActiveStage] returns its input without looking
    for [Now], [TimeMuteStage] fails when [Now] is missing. *)
Theorem TimeStages_opposite (ts : timeStage TI) (ctx : Context) :
  (forall names now,
      MuteTimeIntervalNames ctx = Some names ->
      ActiveTimeIntervalNames ctx = Some names ->
      names <> [] ->
      Now ctx = Some now ->
      snd (inTimeIntervals now (Times ts) names) = None ->
      exists inside : bool,
        inside = fst (inTimeIntervals now (Times ts) names) /\
        forall alerts (w : World R),
        exists w1 w2,
          TimeMuteStage_Exec ts ctx alerts w =
            Some (w1, (ctx, if inside then [] else alerts, None)) /\
          TimeActiveStage_Exec ts ctx alerts w =
            Some (w2, (ctx, if inside then alerts else [], None))) /\
  (ActiveTimeIntervalNames ctx = Some [] ->
   forall alerts (w : World R),
     TimeActiveStage_Exec ts ctx alerts w = Some (w, (ctx, alerts, None))) /\
  (MuteTimeIntervalNames ctx = Some [] ->
   forall alerts (w : World R),
     TimeMuteStage_Exec ts ctx alerts w =
     Some (w, (ctx, alerts,
               match Now ctx with
               | Some _ => None
               | None => Some (New "missing now timestamp")
               end))).
Proof.
  split_and!.
  - intros names now Hm Ha Hne Hnow Herr.
    exists (fst (inTimeIntervals now (Times ts) names)). split; [reflexivity|].
    intros alerts w. unfold TimeMuteStage_Exec, TimeActiveStage_Exec.
    rewrite Hm, Ha, Hnow.
    destruct names as [|n names]; [congruence|]. cbn [length Nat.eqb].
    destruct (inTimeIntervals now (Times ts) (n :: names)) as [inside [e|]];
      [discriminate|].
    destruct inside; simpl; eauto.
  - intros Ha alerts w. unfold TimeActiveStage_Exec. rewrite Ha. reflexivity.
  - intros Hm alerts w. unfold TimeMuteStage_Exec. rewrite Hm.
    destruct (Now ctx); reflexivity.
Qed.

End TimeMore.

(** [Now] = 5 is inside [night]: the mute stage drops the batch and the
    active stage keeps it. *)
Lemma TimeStages_opposite_witness :
  let ctx := WithNow (WithActiveTimeIntervals (WithMuteTimeIntervals ∅ ["night"])
                                              ["night"]) 5 in
  exists inside : bool,
    inside = fst (inTimeIntervals 5 (Times Sample.night_only) ["night"]) /\
    forall alerts (w : World unit),
    exists w1 w2,
      TimeMuteStage_Exec Sample.night_only ctx alerts w =
        Some (w1, (ctx, if inside then [] else alerts, None)) /\
      TimeActiveStage_Exec Sample.night_only ctx alerts w =
        Some (w2, (ctx, if inside then alerts else [], None)).
Proof.
  intros ctx.
  apply (proj1 (TimeStages_opposite (R := unit) Sample.night_only ctx) ["night"] 5);
    first [reflexivity | discriminate].
Defined.

(** ** The keys of the store *)

Lemma append_assoc (s1 s2 s3 : string) : (s1 +:+ s2) +:+ s3 = s1 +:+ s2 +:+ s3.
Proof.
  induction s1 as [|c s1 IH]; [reflexivity|].
  change (String c ((s1 +:+ s2) +:+ s3) = String c (s1 +:+ s2 +:+ s3)).
  by rewrite IH.
Qed.

(** X8.  Under one group key and one receiver, two alert hashes have the same
    state key only when they are equal, and the same holds for the keys of
    their counters; and the key of a counter is not a state key of the same
    group key, receiver and hash. *)
Theorem stateKey_separates (k : string) (r : nflogpb.Receiver) (h1 h2 : N) :
  (stateKey k r h1 = stateKey k r h2 <-> h1 = h2) /\
  (AlertSentPrefix +:+ stateKey k r h1 = AlertSentPrefix +:+ stateKey k r h2 <->
   h1 = h2) /\
  AlertSentPrefix +:+ stateKey k r h1 <> stateKey k r h1.
Proof.
  assert (Hinj : stateKey k r h1 = stateKey k r h2 -> h1 = h2).
  { unfold stateKey. intros Heq.
    do 4 apply String.app_inj in Heq. by apply pretty_N_inj in Heq. }
  split_and!.
  - split; [exact Hinj|by intros ->].
  - split; [|by intros ->]. intros Heq. apply String.app_inj in Heq. auto.
  - apply counter_key_ne.
Qed.

(** X9.  The colon that separates the group key from the name of the receiver
    group is not escaped: a group key that ends in [:g] with a receiver group
    [n] has the state keys of the group key without it with the receiver
    group [g:n]. *)
Theorem stateKey_colon (k g : string) (r : nflogpb.Receiver) (h : N) :
  stateKey (k +:+ ":" +:+ g) r h =
  stateKey k {| nflogpb.GroupName := g +:+ ":" +:+ nflogpb.GroupName r;
                nflogpb.Integration := nflogpb.Integration r;
                nflogpb.Idx := nflogpb.Idx r |} h.
Proof.
  unfold stateKey, receiverKey. simpl. rewrite !append_assoc. reflexivity.
Qed.

(** ** Alert fingerprinting *)

Lemma LabelNames_le_total : Total LabelNames_le.
Proof. intros a b. unfold LabelNames_le. apply leb_total. Qed.

#[local] Existing Instance LabelNames_le_total.

(** X10.  [hashAlert] writes every label of the alert once, the names in
    ascending order of their bytes, and reads nothing of the alert but its
    labels. *)
Theorem hashAlert_names `{!XXHash} (a : types.Alert) :
  hashAlert a =
    Sum64 (fold_left
             (fun b ln => b +:+ ln +:+ sep +:+
                          default EmptyString (types.Labels a !! ln) +:+ sep)
             (hash_names a) EmptyString) /\
  Sorted LabelNames_le (hash_names a) /\
  NoDup (hash_names a) /\
  (forall ln, ln ∈ hash_names a <-> is_Some (types.Labels a !! ln)) /\
  (forall b, types.Labels b = types.Labels a -> hashAlert b = hashAlert a).
Proof.
  split_and!.
  - reflexivity.
  - apply Sorted_merge_sort. apply _.
  - unfold hash_names. rewrite merge_sort_Permutation.
    apply NoDup_fst_map_to_list.
  - intros ln. unfold hash_names. rewrite merge_sort_Permutation.
    rewrite list_elem_of_fmap. split.
    + intros [[ln' v] [-> Hin]]. apply elem_of_map_to_list in Hin. eauto.
    + intros [v Hv]. exists (ln, v). split; [reflexivity|].
      by apply elem_of_map_to_list.
  - intros b Hb. unfold hashAlert. rewrite Hb. reflexivity.
Qed.

Lemma hashAlert_names_witness :
  hashAlert (types.set_SentCount 9 Sample.disk) = hashAlert Sample.disk.
Proof.
  apply (proj2 (proj2 (proj2 (proj2 (hashAlert_names Sample.disk))))).
  reflexivity.
Defined.

(** ** DedupStage: what it leaves alone *)

Section DedupFrame.
Context {R : Type} `{!redis.Cmdable R}.
Implicit Types (n : DedupStage) (v : DedupVars R) (a : AlertPtr) (w : World R).

Lemma stamped_only_refl (ps : list AlertPtr) (h : Heap) : stamped_only ps h h.
Proof. intros p. by left. Qed.

Lemma stamped_only_trans (ps : list AlertPtr) (h1 h2 h3 : Heap) :
  stamped_only ps h1 h2 -> stamped_only ps h2 h3 -> stamped_only ps h1 h3.
Proof.
  intros H12 H23 p.
  destruct (H23 p) as [->|[Hin [c3 ->]]]; [apply H12|].
  right. split; [exact Hin|].
  destruct (H12 p) as [->|[_ [c2 ->]]]; by exists c3.
Qed.

Lemma stamped_only_weaken (ps qs : list AlertPtr) (h h' : Heap) :
  (forall p, In p ps -> In p qs) -> stamped_only ps h h' -> stamped_only qs h h'.
Proof. intros Hsub Hs p. destruct (Hs p) as [?|[? ?]]; auto. Qed.

Lemma stamped_only_store (h : Heap) a (count : Z) :
  stamped_only [a] h (store h a (types.set_SentCount count (h a))).
Proof.
  intros p. unfold store. destruct (Nat.eqb_spec p a) as [->|Hne]; [|by left].
  right. split; [by left|by exists count].
Qed.

(** One turn of the loop writes to nothing in the world but the store, the
    log and the [SentCount] of its alert, and to no key of the context but
    [RuleUID]. *)
Lemma dedup_body_frame n (gkey : string) (ri : Duration) v a :
  let v' := dedup_body n gkey ri v a in
  clock (dv_world v') = clock (dv_world v) /\
  trace (dv_world v') = trace (dv_world v) /\
  rounds (dv_world v') = rounds (dv_world v) /\
  ctxErr (dv_world v') = ctxErr (dv_world v) /\
  stamped_only [a] (heap (dv_world v)) (heap (dv_world v')) /\
  delete keyRuleUID (dv_ctx v') = delete keyRuleUID (dv_ctx v).
Proof.
  unfold dedup_body, dedup_resolved, dedup_firing, dedup_stage_check, WithRuleUID.
  repeat case_match; simplify_eq; simpl;
    rewrite ?delete_insert_eq;
    split_and!; try reflexivity;
    first [apply stamped_only_refl | apply stamped_only_store].
Qed.

Lemma dedup_loop_frame n (gkey : string) (ri : Duration) (alerts : list AlertPtr) v :
  let v' := dedup_loop n gkey ri alerts v in
  clock (dv_world v') = clock (dv_world v) /\
  trace (dv_world v') = trace (dv_world v) /\
  rounds (dv_world v') = rounds (dv_world v) /\
  ctxErr (dv_world v') = ctxErr (dv_world v) /\
  stamped_only alerts (heap (dv_world v)) (heap (dv_world v')) /\
  delete keyRuleUID (dv_ctx v') = delete keyRuleUID (dv_ctx v).
Proof.
  revert v. induction alerts as [|a alerts IH]; intros v; simpl.
  - split_and!; try reflexivity. apply stamped_only_refl.
  - destruct (IH (dedup_body n gkey ri v a)) as (Hc & Ht & Hr & He & Hh & Hx).
    destruct (dedup_body_frame n gkey ri v a) as (Hc' & Ht' & Hr' & He' & Hh' & Hx').
    split_and!; try congruence.
    eapply stamped_only_trans.
    + eapply stamped_only_weaken; [|exact Hh']. intros p [->|[]]. by left.
    + eapply stamped_only_weaken; [|exact Hh]. intros p Hp. by right.
Qed.

(** The frame of a call. *)
Lemma dedup_exec_frame n (ctx : Context) (alerts : list AlertPtr) w :
  exists w' ctx' out err,
    DedupStage_Exec n ctx alerts w = Some (w', (ctx', out, err)) /\
    clock w' = clock w /\ trace w' = trace w /\ rounds w' = rounds w /\
    ctxErr w' = ctxErr w /\
    stamped_only alerts (heap w) (heap w') /\
    (forall k,
        k <> keyRuleUID -> k <> keyFiringAlerts -> k <> keyResolvedAlerts ->
        ctx' !! k = ctx !! k) /\
    (err <> None -> w' = w /\ ctx' = ctx /\ out = []).
Proof.
  unfold DedupStage_Exec.
  destruct (GroupKey ctx) as [gkey|];
    [|eexists _, _, _, _; split; [reflexivity|];
      split_and!; try done; apply stamped_only_refl].
  destruct (RepeatInterval ctx) as [ri|];
    [|eexists _, _, _, _; split; [reflexivity|];
      split_and!; try done; apply stamped_only_refl].
  destruct (dedup_loop_frame n gkey ri alerts (dedup_start ctx w))
    as (Hc & Ht & Hr & He & Hh & Hx).
  eexists _, _, _, _. split; [reflexivity|]. split_and!; try done.
  intros k Hk1 Hk2 Hk3. unfold WithResolvedAlerts, WithFiringAlerts.
  rewrite !lookup_insert_ne by congruence.
  apply (f_equal (fun m : Context => m !! k)) in Hx.
  rewrite !lookup_delete_ne in Hx by congruence. exact Hx.
Qed.

(** X11.  [DedupStage.Exec] leaves the clock, the events, the rounds of the retry
    loops and every alert that is not in the batch as they were; of an alert
    of the batch it changes nothing but [SentCount].  The context it returns
    is the one it was given but for [RuleUID], [FiringAlerts] and
    [ResolvedAlerts].  With an error it returns its context and its world
    untouched. *)
Theorem DedupStage_Exec_frame n (ctx : Context) (alerts : list AlertPtr) w :
  exists w' ctx' out err,
    DedupStage_Exec n ctx alerts w = Some (w', (ctx', out, err)) /\
    clock w' = clock w /\ trace w' = trace w /\ rounds w' = rounds w /\
    ctxErr w' = ctxErr w /\
    stamped_only alerts (heap w) (heap w') /\
    (forall k,
        k <> keyRuleUID -> k <> keyFiringAlerts -> k <> keyResolvedAlerts ->
        ctx' !! k = ctx !! k) /\
    (err <> None -> w' = w /\ ctx' = ctx /\ out = []).
Proof. apply dedup_exec_frame. Qed.

(** What is read of an alert, but for [SentCount], is the same in two heaps
    that differ by stamps. *)
Lemma stamped_only_reads (ps : list AlertPtr) (h h' : Heap) n (t : Time) a :
  stamped_only ps h h' ->
  hash_ignores_SentCount n ->
  hash n (h' a) = hash n (h a) /\
  types.ResolvedAt (h' a) t = types.ResolvedAt (h a) t /\
  types.Stage (h' a) = types.Stage (h a).
Proof.
  intros Hs Hhash. destruct (Hs a) as [->|[_ [c ->]]]; [done|].
  split; [apply Hhash|]. split; reflexivity.
Qed.

(** The lists of the loop, in terms of the heap and the clock at the start
    of the call. *)
Lemma dedup_loop_hashes n (gkey : string) (ri : Duration) (h0 : Heap)
      (alerts : list AlertPtr) v :
  hash_ignores_SentCount n ->
  (exists ps, stamped_only ps h0 (heap (dv_world v))) ->
  let res0 := fun a => types.ResolvedAt (h0 a) (clock (dv_world v)) in
  let hash0 := fun a => hash n (h0 a) in
  let v' := dedup_loop n gkey ri alerts v in
  exists out,
    needsUpdateAlerts v' = needsUpdateAlerts v ++ out /\
    out `sublist_of` alerts /\
    resolved v' = resolved v ++ map hash0 (List.filter res0 alerts) /\
    firing v' =
    firing v ++ map hash0 (List.filter (fun a => negb (res0 a)) out).
Proof.
  intros Hhash. revert v.
  induction alerts as [|a alerts IH]; intros v [ps Hps] res0 hash0; simpl.
  - exists []. rewrite !app_nil_r. split_and!; try done.
  - destruct (dedup_body_frame n gkey ri v a) as (Hc & _ & _ & _ & Hh & _).
    destruct (stamped_only_reads ps h0 _ n (clock (dv_world v)) a Hps Hhash)
      as (Hha & Hra & _).
    assert (Hps' : exists ps', stamped_only ps' h0
                                 (heap (dv_world (dedup_body n gkey ri v a)))).
    { exists (a :: ps). eapply stamped_only_trans.
      - eapply stamped_only_weaken; [|exact Hps]. intros p Hp. by right.
      - eapply stamped_only_weaken; [|exact Hh]. intros p [->|[]]. by left. }
    destruct (IH (dedup_body n gkey ri v a) Hps') as (out & Hn & Hsub & Hr & Hf).
    rewrite Hc in Hr, Hf. fold res0 in Hr, Hf. fold hash0 in Hr, Hf.
    fold (Resolved (dv_world v) a) in Hra.
    destruct (res0 a) eqn:Hres; subst res0; simpl in Hres; rewrite Hres in Hra.
    + destruct (redis.Exists (rdb (dv_world v))
                  (stateKey gkey (recv n) (hash n (heap (dv_world v) a))))
        as [r1 ex] eqn:HE.
      destruct (dedup_body_resolved n gkey ri v a r1 ex Hra HE)
        as (Hr1 & Hf1 & Hn1 & _).
      exists ((if exists_ok ex then [a] else []) ++ out).
      rewrite Hn, Hn1, Hr, Hr1, Hf, Hf1, Hha, <- !app_assoc.
      split_and!; try done.
      * destruct (exists_ok ex); simpl; [by constructor|by apply sublist_cons].
      * destruct (exists_ok ex); simpl; [rewrite Hres|]; reflexivity.
    + destruct (redis.SetNX
                  (rdb (dedup_stage_check
                          (stateKey gkey (recv n) (hash n (heap (dv_world v) a)))
                          a (dv_world v)).2)
                  (stateKey gkey (recv n) (hash n (heap (dv_world v) a)))
                  (types.Stage (heap (dv_world v) a)) ri) as [r2 nx] eqn:HNX.
      destruct (dedup_body_firing n gkey ri v a r2 nx Hra HNX)
        as (Hr1 & Hn1 & Hf1 & _).
      exists ((if set_ok nx then [a] else []) ++ out).
      rewrite Hn, Hn1, Hr, Hr1, Hf, Hf1, Hha, <- !app_assoc.
      split_and!; try done.
      * destruct (set_ok nx); simpl; [by constructor|by apply sublist_cons].
      * destruct (set_ok nx); simpl; [rewrite Hres|]; reflexivity.
Qed.

(** No element is kept by a filter exactly when all fail its test. *)
Lemma map_filter_negb_nil {A B : Type} (f : A -> B) (p : A -> bool) (l : list A) :
  map f (List.filter (fun x => negb (p x)) l) = [] <->
  forall x, In x l -> p x = true.
Proof.
  induction l as [|x l IH]; simpl.
  - split; [intros _ y []|reflexivity].
  - destruct (p x) eqn:Hx; simpl.
    + rewrite IH. split; [intros Hall y [<-|Hy]; auto|intros Hall y Hy; apply Hall; by right].
    + split; [discriminate|]. intros Hall. specialize (Hall x (or_introl eq_refl)). congruence.
Qed.

(** The lists of a call. *)
Lemma dedup_exec_hashes n (ctx ctx' : Context)
        (alerts out : list AlertPtr) w (w' : World R) :
  hash_ignores_SentCount n ->
  DedupStage_Exec n ctx alerts w = Some (w', (ctx', out, None)) ->
  out `sublist_of` alerts /\
  ResolvedAlerts ctx' =
    Some (map (fun a => hash n (heap w a)) (List.filter (Resolved w) alerts)) /\
  FiringAlerts ctx' =
    Some (map (fun a => hash n (heap w a))
              (List.filter (fun a => negb (Resolved w a)) out)) /\
  (FiringAlerts ctx' = Some [] <-> forall a, In a out -> Resolved w a = true).
Proof.
  intros Hhash. unfold DedupStage_Exec.
  destruct (GroupKey ctx) as [gkey|]; [|discriminate].
  destruct (RepeatInterval ctx) as [ri|]; [|discriminate].
  intros [= <- <- <-].
  destruct (dedup_loop_hashes n gkey ri (heap w) alerts (dedup_start ctx w) Hhash)
    as (out & Hn & Hsub & Hr & Hf).
  { exists []. apply stamped_only_refl. }
  simpl in Hn, Hr, Hf. rewrite Hn.
  rewrite FiringAlerts_installed, ResolvedAlerts_installed, Hr, Hf.
  split_and!; try done.
  pose proof (map_filter_negb_nil (fun a => hash n (heap w a)) (Resolved w) out)
    as [Hto Hfrom].
  split; [intros [= Hnil]; by apply Hto|].
  intros Hall. f_equal. by apply Hfrom.
Qed.

(** X12.  With a hash that does not read [SentCount], as [hashAlert] is, the batch
    that [DedupStage.Exec] returns is a part of its input in the same order;
    [ResolvedAlerts] holds the hashes of all the resolved alerts of the input,
    let through or not, and [FiringAlerts] the hashes of the alerts let
    through that are not resolved.  So [FiringAlerts] is empty exactly when
    every alert let through is resolved. *)
Theorem DedupStage_Exec_hashes n (ctx ctx' : Context)
        (alerts out : list AlertPtr) w (w' : World R) :
  hash_ignores_SentCount n ->
  DedupStage_Exec n ctx alerts w = Some (w', (ctx', out, None)) ->
  out `sublist_of` alerts /\
  ResolvedAlerts ctx' =
    Some (map (fun a => hash n (heap w a)) (List.filter (Resolved w) alerts)) /\
  FiringAlerts ctx' =
    Some (map (fun a => hash n (heap w a))
              (List.filter (fun a => negb (Resolved w a)) out)) /\
  (FiringAlerts ctx' = Some [] <-> forall a, In a out -> Resolved w a = true).
Proof. apply dedup_exec_hashes. Qed.

End DedupFrame.

(** The firing alert 0 is let through, the resolved alert 2 is not: its hash
    is in [ResolvedAlerts] all the same. *)
Lemma DedupStage_Exec_hashes_witness :
  Sample.first_call.2.1.2 `sublist_of` [0%nat] /\
  ResolvedAlerts Sample.first_call.2.1.1 =
    Some (map (fun a => hash Sample.dedup (heap Sample.fresh a))
              (List.filter (Resolved Sample.fresh) [0%nat])).
Proof.
  destruct (DedupStage_Exec_hashes Sample.dedup Sample.ctx
              Sample.first_call.2.1.1 [0%nat] Sample.first_call.2.1.2
              Sample.fresh Sample.first_call.1) as (Hsub & Hres & _).
  - intros x count. apply hashAlert_SentCount.
  - vm_compute. reflexivity.
  - split; assumption.
Defined.

(** ** DedupStage on a server that answers *)

Section QuietServer.
Implicit Types (r : MemRedis) (k : string) (n : DedupStage) (a : AlertPtr)
         (w : World MemRedis).

Lemma command_quiet {A} r (f : MemRedis -> MemRedis * redis.Reply A) :
  faults r = [] -> command r f = f r.
Proof. unfold command. by intros ->. Qed.

Lemma px_millis_pos (expiration : Duration) :
  0 < expiration -> 0 < px_millis expiration.
Proof.
  intros Hpos. unfold px_millis.
  destruct (0 <? expiration) eqn:H0; [|lia].
  destruct (expiration <? 1000000) eqn:H1; simpl; [lia|].
  rewrite Z.quot_div_nonneg by lia.
  apply Z.div_str_pos. lia.
Qed.

Lemma mem_SetNX_quiet r k (x : string) (expiration : Duration) :
  faults r = [] -> taken expiration ->
  mem_SetNX r k x expiration =
  match live r k with
  | Some _ => (r, redis.Ok false)
  | None =>
      (set_data (<[k := (x, expiry_of expiration (rnow r))]> (data r)) r,
       redis.Ok true)
  end.
Proof.
  intros Hq Ht. unfold mem_SetNX. rewrite command_quiet by done.
  destruct ((expiration =? 0) || (expiration =? -1)) eqn:Hk; simpl; [done|].
  apply orb_false_iff in Hk as [Hk0 Hk1].
  pose proof (px_millis_pos expiration) as Hpx.
  destruct (px_millis expiration <=? 0) eqn:Hle; [|done].
  unfold taken in Ht. lia.
Qed.

Lemma live_just_set r k (x : string) (expiration : Duration) :
  taken expiration ->
  live (set_data (<[k := (x, expiry_of expiration (rnow r))]> (data r)) r) k =
  Some x.
Proof.
  intros Ht. unfold live. simpl. rewrite lookup_insert_eq.
  unfold expiry_of.
  destruct ((expiration =? 0) || (expiration =? -1)) eqn:Hk; [done|].
  apply orb_false_iff in Hk as [Hk0 Hk1].
  pose proof (px_millis_pos expiration) as Hpx.
  destruct (rnow r <? rnow r + px_millis expiration * 1000000) eqn:Hlt; [done|].
  unfold taken in Ht. lia.
Qed.

(** The stage check on a server that answers: it leaves the key alone unless
    the key holds the name of another stage, and then deletes it. *)
Lemma dedup_stage_check_quiet (sKey : string) a w :
  faults (rdb w) = [] ->
  let w1 := (dedup_stage_check sKey a w).2 in
  faults (rdb w1) = [] /\ rnow (rdb w1) = rnow (rdb w) /\
  (forall k, k <> sKey -> data (rdb w1) !! k = data (rdb w) !! k) /\
  if lets_through (rdb w) sKey (types.Stage (heap w a))
  then live (rdb w1) sKey = None
  else data (rdb w1) = data (rdb w) /\ live (rdb w) sKey <> None.
Proof.
  intros Hq. unfold dedup_stage_check, lets_through.
  change (redis.Get (rdb w) sKey) with (mem_Get (rdb w) sKey).
  unfold mem_Get. rewrite command_quiet by done.
  destruct (live (rdb w) sKey) as [s|] eqn:Hlive; simpl.
  - destruct (negb (String.eqb s EmptyString) &&
              negb (String.eqb s (types.Stage (heap w a)))) eqn:Hother; simpl.
    + unfold mem_Del. rewrite command_quiet by done. simpl.
      split_and!; try done;
        first [ intros k Hk; by rewrite lookup_delete_ne
              | unfold live; simpl; by rewrite lookup_delete_eq ].
    + split_and!; try done; by rewrite Hlive.
  - rewrite String.eqb_refl, andb_false_r. simpl. split_and!; done.
Qed.

Lemma mem_Incr_quiet r k :
  faults r = [] -> faults (mem_Incr r k).1 = [].
Proof.
  intros Hq. unfold mem_Incr. rewrite command_quiet by done.
  repeat case_match; done.
Qed.

(** The turn of an alert that is not resolved, on a server that answers. *)
Lemma dedup_body_quiet n (gkey : string) (ri : Duration) (v : DedupVars MemRedis) a :
  Resolved (dv_world v) a = false ->
  faults (rdb (dv_world v)) = [] ->
  taken ri ->
  let w := dv_world v in
  let sKey := stateKey gkey (recv n) (hash n (heap w a)) in
  let v' := dedup_body n gkey ri v a in
  needsUpdateAlerts v' =
    needsUpdateAlerts v ++
    (if lets_through (rdb w) sKey (types.Stage (heap w a)) then [a] else []) /\
  faults (rdb (dv_world v')) = [] /\
  rnow (rdb (dv_world v')) = rnow (rdb w) /\
  (forall k, k <> sKey -> k <> AlertSentPrefix +:+ sKey ->
             data (rdb (dv_world v')) !! k = data (rdb w) !! k) /\
  if lets_through (rdb w) sKey (types.Stage (heap w a))
  then data (rdb (dv_world v')) !! sKey =
       Some (types.Stage (heap w a), expiry_of ri (rnow (rdb w)))
  else data (rdb (dv_world v')) = data (rdb w).
Proof.
  intros Hres Hq Ht w sKey v'.
  destruct (dedup_stage_check_quiet sKey a w Hq) as (Hq1 & Hn1 & Hd1 & Hkey).
  set (w1 := (dedup_stage_check sKey a w).2) in *.
  destruct (redis.SetNX (rdb w1) sKey (types.Stage (heap w a)) ri)
    as [r2 nx] eqn:HNX.
  destruct (dedup_body_firing n gkey ri v a r2 nx Hres HNX)
    as (_ & Hneeds & _ & Hok & Hno).
  fold v' in Hneeds, Hok, Hno. fold w in Hneeds, Hok, Hno.
  change (mem_SetNX (rdb w1) sKey (types.Stage (heap w a)) ri = (r2, nx)) in HNX.
  rewrite mem_SetNX_quiet in HNX by done.
  destruct (lets_through (rdb w) sKey (types.Stage (heap w a))).
  - rewrite Hkey in HNX. injection HNX as <- <-.
    set (r2 := set_data (<[sKey := (types.Stage (heap w a),
                                    expiry_of ri (rnow (rdb w1)))]>
                           (data (rdb w1))) (rdb w1)) in *.
    destruct (redis.Incr r2 (AlertSentPrefix +:+ sKey)) as [r3 inc] eqn:HI.
    destruct (Hok eq_refl r3 inc HI) as [Hr3 _].
    change (mem_Incr r2 (AlertSentPrefix +:+ sKey) = (r3, inc)) in HI.
    pose proof (mem_Incr_quiet r2 (AlertSentPrefix +:+ sKey) Hq1) as Hq3.
    destruct (mem_Incr_frame _ _ _ _ HI) as [Hn3 Hd3].
    rewrite HI in Hq3. simpl in Hq3, Hn3.
    fold sKey in Hr3. rewrite Hr3.
    split_and!; try done; try congruence.
    + intros k Hk Hck. rewrite Hd3 by done. simpl.
      rewrite lookup_insert_ne by done. by apply Hd1.
    + rewrite Hd3 by (apply not_eq_sym, counter_key_ne). simpl.
      rewrite lookup_insert_eq, Hn1. reflexivity.
  - destruct Hkey as [Hd Hlive].
    assert (Hlive1 : live (rdb w1) sKey <> None).
    { intros Hnone. apply Hlive. rewrite <- Hnone. apply live_ext; done. }
    destruct (live (rdb w1) sKey); [|done].
    injection HNX as <- <-.
    destruct (Hno eq_refl) as [Hr2 _]. fold sKey in Hr2. rewrite Hr2.
    split_and!; try done. intros k _ _. by rewrite Hd.
Qed.

(** A call for one firing alert on a server that answers. *)
Lemma dedup_exec_quiet n (ctx : Context) (gkey : string)
        (ri : Duration) a w :
  GroupKey ctx = Some gkey ->
  RepeatInterval ctx = Some ri ->
  Resolved w a = false ->
  faults (rdb w) = [] ->
  taken ri ->
  let sKey := stateKey gkey (recv n) (hash n (heap w a)) in
  let pass := lets_through (rdb w) sKey (types.Stage (heap w a)) in
  exists w' ctx',
    DedupStage_Exec n ctx [a] w =
      Some (w', (ctx', if pass then [a] else [], None)) /\
    FiringAlerts ctx' =
      Some (if pass then [hash n (heap w a)] else []) /\
    if pass
    then live (rdb w') sKey = Some (types.Stage (heap w a)) /\
         data (rdb w') !! sKey =
           Some (types.Stage (heap w a), expiry_of ri (rnow (rdb w)))
    else data (rdb w') = data (rdb w).
Proof.
  intros Hg Hri Hres Hq Ht sKey pass.
  unfold DedupStage_Exec. rewrite Hg, Hri. simpl dedup_loop.
  destruct (dedup_body_quiet n gkey ri (dedup_start ctx w) a Hres Hq Ht)
    as (Hneeds & _ & Hnow & _ & Hkey).
  simpl in Hneeds, Hnow, Hkey. fold sKey in Hneeds, Hnow, Hkey.
  fold pass in Hneeds, Hkey.
  destruct (redis.SetNX (rdb (dedup_stage_check sKey a w).2) sKey
              (types.Stage (heap w a)) ri) as [r2 nx] eqn:HNX.
  destruct (dedup_body_firing n gkey ri (dedup_start ctx w) a r2 nx Hres HNX)
    as (_ & Hneeds' & Hf & _).
  simpl in Hneeds', Hf. rewrite Hneeds' in Hneeds.
  eexists _, _. split; [by rewrite Hneeds', Hneeds|].
  rewrite FiringAlerts_installed, Hf.
  split; [destruct (set_ok nx), pass; try done|].
  destruct pass; [|done]. split; [|done].
  unfold live. rewrite Hkey, Hnow.
  apply (live_just_set (rdb w) sKey (types.Stage (heap w a)) ri) in Ht.
  unfold live in Ht. simpl in Ht. by rewrite lookup_insert_eq in Ht.
Qed.

(** X13.  On a server that answers every command, with an expiration it takes, an
    alert that is not resolved is let through exactly when its state key is
    not there (never set, or expired) or holds the name of another stage
    than the alert's; a key that holds the empty string, like one that holds
    the alert's own stage, makes the stage drop it.  An alert let through
    leaves its stage under the key, with the repeat interval as time to
    live; a dropped alert leaves the data of the server as they were. *)
Theorem DedupStage_Exec_quiet_server n (ctx : Context) (gkey : string)
        (ri : Duration) a w :
  GroupKey ctx = Some gkey ->
  RepeatInterval ctx = Some ri ->
  Resolved w a = false ->
  faults (rdb w) = [] ->
  taken ri ->
  let sKey := stateKey gkey (recv n) (hash n (heap w a)) in
  let pass := lets_through (rdb w) sKey (types.Stage (heap w a)) in
  exists w' ctx',
    DedupStage_Exec n ctx [a] w =
      Some (w', (ctx', if pass then [a] else [], None)) /\
    FiringAlerts ctx' =
      Some (if pass then [hash n (heap w a)] else []) /\
    if pass
    then live (rdb w') sKey = Some (types.Stage (heap w a)) /\
         data (rdb w') !! sKey =
           Some (types.Stage (heap w a), expiry_of ri (rnow (rdb w)))
    else data (rdb w') = data (rdb w).
Proof. apply dedup_exec_quiet. Qed.

End QuietServer.

(** ** DedupStage: two calls in a row *)

Section TwoCalls.
Implicit Types (r : MemRedis) (k : string) (n : DedupStage) (a : AlertPtr)
         (w : World MemRedis).

(** What a call that lets a firing alert through leaves behind: the stage
    under the state key, with the expiry of the repeat interval. *)
Lemma dedup_emitted_key n (ctx : Context) (gkey : string) (ri : Duration) a w
      (w1 : World MemRedis) (ctx1 : Context) :
  hash_ignores_SentCount n ->
  GroupKey ctx = Some gkey ->
  RepeatInterval ctx = Some ri ->
  Resolved w a = false ->
  DedupStage_Exec n ctx [a] w = Some (w1, (ctx1, [a], None)) ->
  let sKey := stateKey gkey (recv n) (hash n (heap w a)) in
  data (rdb w1) !! sKey =
    Some (types.Stage (heap w a), expiry_of ri (rnow (rdb w1))) /\
  taken ri /\
  hash n (heap w1 a) = hash n (heap w a) /\
  types.Stage (heap w1 a) = types.Stage (heap w a).
Proof.
  intros Hhash Hg Hri Hres Hfirst sKey.
  unfold DedupStage_Exec in Hfirst. rewrite Hg, Hri in Hfirst.
  simpl dedup_loop in Hfirst.
  destruct (redis.SetNX (rdb (dedup_stage_check sKey a w).2) sKey
              (types.Stage (heap w a)) ri) as [r2 nx] eqn:HNX.
  destruct (dedup_body_firing n gkey ri (dedup_start ctx w) a r2 nx Hres HNX)
    as (_ & Hneeds & _ & Hok & _).
  injection Hfirst as Hw1 _ Hout. rewrite Hout in Hneeds.
  destruct (set_ok nx) eqn:Hset; [|discriminate Hneeds].
  destruct nx as [[|]|e]; try discriminate Hset.
  destruct (redis.Incr r2 (AlertSentPrefix +:+ sKey)) as [r3 inc] eqn:HI.
  destruct (Hok eq_refl r3 inc HI) as [Hr3 Hheap]. rewrite Hw1 in Hr3, Hheap.
  simpl in Hheap.
  destruct (mem_SetNX_true _ _ _ _ _ HNX) as [Hn2 Hd2].
  destruct (mem_Incr_frame _ _ _ _ HI) as [Hn3 Hd3].
  split_and!.
  - rewrite Hr3, Hd3 by (apply not_eq_sym, counter_key_ne).
    rewrite Hd2, lookup_insert_eq, Hn3, Hn2. reflexivity.
  - change (mem_SetNX (rdb (dedup_stage_check sKey a w).2) sKey
              (types.Stage (heap w a)) ri = (r2, redis.Ok true)) in HNX.
    unfold mem_SetNX in HNX.
    match type of HNX with command ?r ?f = _ =>
      destruct (command_cases r f) as (r0 & _ & _ & [Hrun|[e Hrun]]);
        rewrite Hrun in HNX; [|discriminate HNX]
    end.
    unfold taken.
    destruct ((ri =? 0) || (ri =? -1)) eqn:Hk; simpl in HNX.
    + apply orb_true_iff in Hk. lia.
    + destruct (px_millis ri <=? 0) eqn:Hpx; [discriminate HNX|].
      unfold px_millis in Hpx.
      destruct (0 <? ri) eqn:Hpos; [lia|]. simpl in Hpx.
      assert (ri ÷ 1000000 <= 0); [|lia].
      destruct (Z.eq_dec ri 0) as [->|Hne]; [done|].
      apply Z.quot_le_upper_bound; lia.
  - destruct inc as [count|e]; rewrite Hheap; [|done].
    rewrite store_same. apply Hhash.
  - destruct inc as [count|e]; rewrite Hheap; [|done].
    rewrite store_same. reflexivity.
Qed.

(** The key has expired once the time to live sent with it has passed. *)
Lemma live_after_ttl r k (x : string) (expiration dt : Duration) (t0 : Time) :
  data r !! k = Some (x, expiry_of expiration t0) ->
  rnow r = t0 + dt ->
  0 < expiration ->
  px_millis expiration * 1000000 <= dt ->
  live r k = None.
Proof.
  intros Hd Hn Hpos Hdt. unfold live. rewrite Hd. unfold expiry_of.
  destruct ((expiration =? 0) || (expiration =? -1)) eqn:Hk.
  - apply orb_true_iff in Hk. lia.
  - destruct (rnow r <? t0 + px_millis expiration * 1000000) eqn:Hlt; [lia|done].
Qed.

(** X14.  A firing alert that a call has let through is let through again by a
    call made when the repeat interval, as the server counts it (in whole
    milliseconds, and one at least), has passed: the state key has expired
    by then.  Before that the alert is dropped, so the interval between two
    notifications of an alert that keeps firing in the same stage is the
    time to live of the key. *)
Theorem DedupStage_repeats_after_interval n (ctx : Context) (gkey : string)
        (ri : Duration) a w (w1 : World MemRedis) (ctx1 : Context)
        (dt : Duration) :
  hash_ignores_SentCount n ->
  GroupKey ctx = Some gkey ->
  RepeatInterval ctx = Some ri ->
  Resolved w a = false ->
  DedupStage_Exec n ctx [a] w = Some (w1, (ctx1, [a], None)) ->
  0 < ri ->
  px_millis ri * 1000000 <= dt ->
  Resolved (later dt [] w1) a = false ->
  exists w2 ctx2,
    DedupStage_Exec n ctx [a] (later dt [] w1) = Some (w2, (ctx2, [a], None)) /\
    FiringAlerts ctx2 = Some [hash n (heap w a)].
Proof.
  intros Hhash Hg Hri Hres Hfirst Hpos Hdt Hres2.
  destruct (dedup_emitted_key n ctx gkey ri a w w1 ctx1 Hhash Hg Hri Hres Hfirst)
    as (Hkey & Ht & Hh & Hstage).
  destruct (dedup_exec_quiet n ctx gkey ri a (later dt [] w1)
              Hg Hri Hres2 eq_refl Ht) as (w2 & ctx2 & Hexec & Hf & _).
  simpl heap in Hexec, Hf. rewrite Hh in Hexec, Hf.
  assert (Hpass : lets_through (rdb (later dt [] w1))
                    (stateKey gkey (recv n) (hash n (heap w a)))
                    (types.Stage (heap w1 a)) = true).
  { unfold lets_through.
    rewrite (live_after_ttl _ _ (types.Stage (heap w a)) ri dt (rnow (rdb w1)));
      done. }
  rewrite Hpass in Hexec, Hf. eauto.
Qed.

(** The turn of a resolved alert on a server that answers. *)
Lemma dedup_resolved_quiet n (ctx : Context) (gkey : string) (ri : Duration) a w :
  GroupKey ctx = Some gkey ->
  RepeatInterval ctx = Some ri ->
  Resolved w a = true ->
  faults (rdb w) = [] ->
  let sKey := stateKey gkey (recv n) (hash n (heap w a)) in
  exists w' ctx',
    DedupStage_Exec n ctx [a] w =
      Some (w', (ctx',
                  match live (rdb w) sKey with Some _ => [a] | None => [] end,
                  None)) /\
    ResolvedAlerts ctx' = Some [hash n (heap w a)] /\
    FiringAlerts ctx' = Some [] /\
    data (rdb w') = data (rdb w).
Proof.
  intros Hg Hri Hres Hq sKey.
  unfold DedupStage_Exec. rewrite Hg, Hri. simpl dedup_loop.
  destruct (redis.Exists (rdb w) sKey) as [r1 ex] eqn:HE.
  destruct (dedup_body_resolved n gkey ri (dedup_start ctx w) a r1 ex Hres HE)
    as (Hr & Hf & Hneeds & Hok & Hno).
  simpl in Hr, Hf, Hneeds, Hok, Hno. fold sKey in Hok, Hno.
  change (mem_Exists (rdb w) sKey = (r1, ex)) in HE.
  unfold mem_Exists in HE. rewrite command_quiet in HE by done.
  injection HE as <- <-.
  eexists _, _. split; [rewrite Hneeds|].
  { destruct (live (rdb w) sKey); reflexivity. }
  rewrite FiringAlerts_installed, ResolvedAlerts_installed, Hr, Hf.
  split_and!; try done.
  destruct (live (rdb w) sKey); simpl in Hok, Hno.
  - destruct (redis.GetInt64 (rdb w) (AlertSentPrefix +:+ sKey)) as [r2 got] eqn:HG.
    destruct (Hok eq_refl r2 got eq_refl) as [-> _].
    by destruct (mem_GetInt64_frame _ _ _ _ HG).
  - by destruct (Hno eq_refl) as [-> _].
Qed.

(** X15.  An alert that was notified as firing and is resolved by the next call
    is let through as resolved while its state key lives, and dropped once
    the repeat interval has passed: the notification that it is resolved is
    then never sent by this stage.  In both cases its hash is in
    [ResolvedAlerts]. *)
Theorem DedupStage_resolved_after_firing n (ctx : Context) (gkey : string)
        (ri : Duration) a w (w1 : World MemRedis) (ctx1 : Context)
        (dt : Duration) :
  hash_ignores_SentCount n ->
  GroupKey ctx = Some gkey ->
  RepeatInterval ctx = Some ri ->
  Resolved w a = false ->
  DedupStage_Exec n ctx [a] w = Some (w1, (ctx1, [a], None)) ->
  0 <= dt ->
  Resolved (later dt [] w1) a = true ->
  exists w2 ctx2 out,
    DedupStage_Exec n ctx [a] (later dt [] w1) = Some (w2, (ctx2, out, None)) /\
    ResolvedAlerts ctx2 = Some [hash n (heap w a)] /\
    (within_ttl ri dt -> out = [a]) /\
    (0 < ri -> px_millis ri * 1000000 <= dt -> out = []).
Proof.
  intros Hhash Hg Hri Hres Hfirst Hdt Hres2.
  destruct (dedup_emitted_key n ctx gkey ri a w w1 ctx1 Hhash Hg Hri Hres Hfirst)
    as (Hkey & Ht & Hh & Hstage).
  destruct (dedup_resolved_quiet n ctx gkey ri a (later dt [] w1)
              Hg Hri Hres2 eq_refl) as (w2 & ctx2 & Hexec & Hr & _).
  simpl heap in Hexec, Hr. rewrite Hh in Hexec, Hr.
  eexists _, _, _. split; [exact Hexec|]. split; [exact Hr|]. split.
  - intros Httl.
    rewrite (live_within_ttl _ _ (types.Stage (heap w a)) ri dt (rnow (rdb w1)));
      done.
  - intros Hpos Hlate.
    rewrite (live_after_ttl _ _ (types.Stage (heap w a)) ri dt (rnow (rdb w1)));
      done.
Qed.

End TwoCalls.

(** On the empty server the firing alert 0 is let through and leaves
    [active] under its key. *)
Lemma DedupStage_Exec_quiet_server_witness :
  exists w' ctx',
    DedupStage_Exec Sample.dedup Sample.ctx [0%nat] Sample.fresh =
      Some (w', (ctx', [0%nat], None)) /\
    FiringAlerts ctx' = Some [hash Sample.dedup (heap Sample.fresh 0%nat)] /\
    live (rdb w') (Sample.key 0%nat) = Some "active" /\
    data (rdb w') !! Sample.key 0%nat =
      Some ("active", expiry_of 300000000000 0).
Proof.
  apply (DedupStage_Exec_quiet_server Sample.dedup Sample.ctx "g1" 300000000000
           0%nat Sample.fresh).
  - reflexivity.
  - reflexivity.
  - reflexivity.
  - reflexivity.
  - left. lia.
Defined.

(** Five minutes after its first notification the alert 0, still firing, is
    let through again. *)
Lemma DedupStage_repeats_after_interval_witness :
  exists w2 ctx2,
    DedupStage_Exec Sample.dedup Sample.ctx [0%nat]
                    (later 300000000000 [] Sample.first_call.1) =
      Some (w2, (ctx2, [0%nat], None)) /\
    FiringAlerts ctx2 = Some [hash Sample.dedup (heap Sample.fresh 0%nat)].
Proof.
  apply (DedupStage_repeats_after_interval Sample.dedup Sample.ctx "g1"
           300000000000 0%nat Sample.fresh Sample.first_call.1
           Sample.first_call.2.1.1 300000000000).
  - intros x count. apply hashAlert_SentCount.
  - reflexivity.
  - reflexivity.
  - reflexivity.
  - vm_compute. reflexivity.
  - lia.
  - vm_compute. discriminate.
  - vm_compute. reflexivity.
Defined.

(** The alert 0 ends at 1000000000000: a call made after that finds it
    resolved, and its key expired. *)
Lemma DedupStage_resolved_after_firing_witness :
  exists w2 ctx2 out,
    DedupStage_Exec Sample.dedup Sample.ctx [0%nat]
                    (later 1000000000000 [] Sample.first_call.1) =
      Some (w2, (ctx2, out, None)) /\
    ResolvedAlerts ctx2 = Some [hash Sample.dedup (heap Sample.fresh 0%nat)] /\
    (within_ttl 300000000000 1000000000000 -> out = [0%nat]) /\
    (0 < 300000000000 -> px_millis 300000000000 * 1000000 <= 1000000000000 ->
     out = []).
Proof.
  apply (DedupStage_resolved_after_firing Sample.dedup Sample.ctx "g1"
           300000000000 0%nat Sample.fresh Sample.first_call.1
           Sample.first_call.2.1.1 1000000000000).
  - intros x count. apply hashAlert_SentCount.
  - reflexivity.
  - reflexivity.
  - reflexivity.
  - vm_compute. reflexivity.
  - lia.
  - vm_compute. reflexivity.
Defined.

(** ** DedupStage: the keys of the others *)

Section OtherKeys.
Implicit Types (r : MemRedis) (k : string) (n : DedupStage) (a : AlertPtr)
         (w : World MemRedis).

Lemma del_keys_frame (ks : list string) r (m : Z) k :
  ~ In k ks -> data (del_keys ks r m).1 !! k = data r !! k.
Proof.
  revert r m. induction ks as [|k0 ks IH]; intros r m Hk; simpl; [done|].
  rewrite IH by (intros Hin; apply Hk; by right). simpl.
  apply lookup_delete_ne. intros ->. apply Hk. by left.
Qed.

Lemma mem_Del_frame r (ks : list string) r' (rep : redis.Reply Z) k :
  mem_Del r ks = (r', rep) -> ~ In k ks -> data r' !! k = data r !! k.
Proof.
  unfold mem_Del. intros Hrun Hk.
  match type of Hrun with command ?r ?f = _ =>
    destruct (command_cases r f) as (r0 & Hd & _ & [Hc|[e Hc]]);
      rewrite Hc in Hrun
  end.
  - destruct (del_keys ks r0 0) as [r1 m] eqn:Hdel.
    injection Hrun as <- _.
    pose proof (del_keys_frame ks r0 0 k Hk) as Hf.
    rewrite Hdel in Hf. simpl in Hf. by rewrite Hf, Hd.
  - injection Hrun as <- _. by rewrite Hd.
Qed.

Lemma mem_SetNX_frame r k0 (x : string) (expiration : Duration) r'
      (rep : redis.Reply bool) k :
  mem_SetNX r k0 x expiration = (r', rep) -> k <> k0 ->
  data r' !! k = data r !! k.
Proof.
  unfold mem_SetNX. intros Hrun Hk.
  match type of Hrun with command ?r ?f = _ =>
    destruct (command_cases r f) as (r0 & Hd & _ & [Hc|[e Hc]]);
      rewrite Hc in Hrun
  end.
  - repeat case_match; injection Hrun as <- _; simpl;
      rewrite ?lookup_insert_ne by done; by rewrite Hd.
  - injection Hrun as <- _. by rewrite Hd.
Qed.

(** One turn of the loop leaves every key alone but the state key of its
    alert and the counter of that key. *)
Lemma dedup_body_other_keys n (gkey : string) (ri : Duration)
      (v : DedupVars MemRedis) a k :
  let sKey := stateKey gkey (recv n) (hash n (heap (dv_world v) a)) in
  k <> sKey -> k <> AlertSentPrefix +:+ sKey ->
  data (rdb (dv_world (dedup_body n gkey ri v a))) !! k =
  data (rdb (dv_world v)) !! k.
Proof.
  intros sKey Hk Hck. unfold dedup_body. fold sKey.
  destruct (Resolved (dv_world v) a).
  - unfold dedup_resolved.
    destruct (redis.Exists (rdb (dv_world v)) sKey) as [r1 ex] eqn:HE.
    destruct (mem_Exists_frame _ _ _ _ HE) as [Hd1 _].
    destruct ex as [m|e]; simpl; [|by rewrite Hd1].
    destruct (m =? 1); simpl; [|by rewrite Hd1].
    destruct (redis.GetInt64 r1 (AlertSentPrefix +:+ sKey)) as [r2 got] eqn:HG.
    destruct (mem_GetInt64_frame _ _ _ _ HG) as [Hd2 _].
    destruct got; simpl; by rewrite Hd2, Hd1.
  - unfold dedup_firing.
    assert (Hcheck : data (rdb (dedup_stage_check sKey a (dv_world v)).2) !! k =
                     data (rdb (dv_world v)) !! k).
    { unfold dedup_stage_check.
      destruct (redis.Get (rdb (dv_world v)) sKey) as [r1 got] eqn:HGet.
      destruct (mem_Get_frame _ _ _ _ HGet) as (Hd1 & _ & _).
      destruct got as [s|e]; simpl.
      - destruct (negb (String.eqb s EmptyString) && _); simpl; [|by rewrite Hd1].
        destruct (mem_Del r1 [sKey]) as [r2 del] eqn:HDel. simpl.
        rewrite (mem_Del_frame _ _ _ _ k HDel), Hd1; [done|].
        intros [->|[]]. done.
      - rewrite String.eqb_refl, andb_false_r. simpl. by rewrite Hd1. }
    destruct (dedup_stage_check sKey a (dv_world v)) as [stage w1].
    simpl in Hcheck.
    destruct (redis.SetNX (rdb w1) sKey (types.Stage (heap w1 a)) ri)
      as [r2 nx] eqn:HNX.
    change (mem_SetNX (rdb w1) sKey (types.Stage (heap w1 a)) ri = (r2, nx))
      in HNX.
    pose proof (mem_SetNX_frame _ _ _ _ _ _ k HNX Hk) as Hd2.
    destruct nx as [[|]|e]; simpl; try (by rewrite Hd2, Hcheck).
    destruct (mem_Incr r2 (AlertSentPrefix +:+ sKey)) as [r3 inc] eqn:HI.
    destruct (mem_Incr_frame _ _ _ _ HI) as [_ Hd3].
    destruct inc; simpl; by rewrite Hd3, Hd2, Hcheck.
Qed.

Lemma dedup_loop_other_keys n (gkey : string) (ri : Duration) (h0 : Heap)
      (alerts : list AlertPtr) (v : DedupVars MemRedis) k :
  hash_ignores_SentCount n ->
  (exists ps, stamped_only ps h0 (heap (dv_world v))) ->
  (forall a, In a alerts ->
             k <> stateKey gkey (recv n) (hash n (h0 a)) /\
             k <> AlertSentPrefix +:+ stateKey gkey (recv n) (hash n (h0 a))) ->
  data (rdb (dv_world (dedup_loop n gkey ri alerts v))) !! k =
  data (rdb (dv_world v)) !! k.
Proof.
  intros Hhash. revert v.
  induction alerts as [|a alerts IH]; intros v [ps Hps] Hk; simpl; [done|].
  destruct (dedup_body_frame n gkey ri v a) as (_ & _ & _ & _ & Hh & _).
  destruct (stamped_only_reads ps h0 _ n 0 a Hps Hhash) as (Hha & _ & _).
  rewrite IH.
  - destruct (Hk a (or_introl eq_refl)) as [Hs Hc].
    apply dedup_body_other_keys; by rewrite Hha.
  - exists (a :: ps). eapply stamped_only_trans.
    + eapply stamped_only_weaken; [|exact Hps]. intros p Hp. by right.
    + eapply stamped_only_weaken; [|exact Hh]. intros p [->|[]]. by left.
  - intros b Hb. apply Hk. by right.
Qed.

(** X16.  On the server in memory, whatever faults it meets, [DedupStage.Exec]
    changes no key but the state keys of the alerts of its batch and their
    counters: what is stored under any other key stays as it was. *)
Theorem DedupStage_Exec_other_keys n (ctx : Context) (gkey : string)
        (alerts : list AlertPtr) w (w' : World MemRedis) (res : StageResult)
        k :
  hash_ignores_SentCount n ->
  GroupKey ctx = Some gkey ->
  (forall a, In a alerts ->
             k <> stateKey gkey (recv n) (hash n (heap w a)) /\
             k <> AlertSentPrefix +:+
                  stateKey gkey (recv n) (hash n (heap w a))) ->
  DedupStage_Exec n ctx alerts w = Some (w', res) ->
  data (rdb w') !! k = data (rdb w) !! k.
Proof.
  intros Hhash Hg Hk. unfold DedupStage_Exec. rewrite Hg.
  destruct (RepeatInterval ctx) as [ri|]; [|by intros [= <- _]].
  intros [= <- _].
  apply (dedup_loop_other_keys n gkey ri (heap w) alerts (dedup_start ctx w) k
           Hhash); [|exact Hk].
  exists []. apply stamped_only_refl.
Qed.

End OtherKeys.

(** The call for the alert 0 leaves the key of the alert 1 alone. *)
Lemma DedupStage_Exec_other_keys_witness :
  data (rdb Sample.first_call.1) !! Sample.key 1%nat =
  data (rdb Sample.fresh) !! Sample.key 1%nat.
Proof.
  apply (DedupStage_Exec_other_keys Sample.dedup Sample.ctx "g1" [0%nat]
           Sample.fresh Sample.first_call.1 Sample.first_call.2
           (Sample.key 1%nat)).
  - intros x count. apply hashAlert_SentCount.
  - reflexivity.
  - intros a [<-|[]]. split; vm_compute; discriminate.
  - vm_compute. reflexivity.
Defined.

(** ** RetryStage: what the loop does on its own *)

Section RetryMore.
Context {R : Type}.
Implicit Types (r : RetryStage) (w : World R) (rds : list Round).

Lemma retry_loop_going r (ctx : Context) (alerts sent : list AlertPtr) rds
      (i : Z) (iErr : option Error) w :
  (retry_loop r ctx alerts sent rds i iErr w).2 = None <-> Forall retried rds.
Proof.
  revert i iErr w. induction rds as [|rd rds IH]; intros i iErr w; simpl.
  - split; [constructor|reflexivity].
  - destruct (done_at_check rd) eqn:Hc; simpl.
    { split; [discriminate|]. intros Hall. inversion Hall as [|? ? [Ht _] _].
      unfold ticks in Ht. rewrite Hc in Ht. discriminate Ht. }
    destruct (done_at_wait rd && negb (tick_wins rd)) eqn:Hw; simpl.
    { split; [discriminate|]. intros Hall. inversion Hall as [|? ? [Ht _] _].
      unfold ticks in Ht. rewrite Hc, Hw in Ht. discriminate Ht. }
    assert (Ht : ticks rd = true) by (unfold ticks; by rewrite Hc, Hw).
    destruct (notify_ret rd) as [retry [e|]] eqn:Hret; simpl.
    + destruct retry; simpl.
      * rewrite IH. split.
        -- intros Hall. constructor; [|exact Hall]. split; [exact Ht|].
           exists e. exact Hret.
        -- intros Hall. by inversion Hall.
      * split; [discriminate|]. intros Hall.
        inversion Hall as [|? ? [_ [e' He']] _]. congruence.
    + split; [discriminate|]. intros Hall.
      inversion Hall as [|? ? [_ [e' He']] _]. congruence.
Qed.

Lemma retry_loop_going_trace r (ctx : Context) (alerts sent : list AlertPtr) rds
      (i : Z) (iErr : option Error) w :
  Forall retried rds ->
  trace (retry_loop r ctx alerts sent rds i iErr w).1 =
  trace w ++ flat_map (fun _ => [EvTick; EvNotify (Name (integration r)) sent]) rds.
Proof.
  revert i iErr w. induction rds as [|rd rds IH]; intros i iErr w Hall; simpl.
  - by rewrite app_nil_r.
  - inversion Hall as [|? ? [Ht [e He]] Hrest]; subst.
    unfold ticks in Ht. apply andb_true_iff in Ht as [Hc Hw].
    apply negb_true_iff in Hc, Hw. rewrite Hc, Hw, He. simpl.
    rewrite IH by done.
    destruct (negb (done_at_return rd) && _); simpl; by rewrite <- !app_assoc.
Qed.

(** X17.  The loop has no bound of its own on the attempts
    ([b.MaxElapsedTime = 0]): it is still going when the rounds are over
    exactly when each of them was a tick with a [Notify] that failed and
    asked to retry, and it has then called [Notify] once in each round, with
    the same alerts. *)
Theorem RetryStage_always_retries r (ctx : Context)
        (alerts sent : list AlertPtr) rds (i : Z) (iErr : option Error) w :
  ((retry_loop r ctx alerts sent rds i iErr w).2 = None <-> Forall retried rds) /\
  (Forall retried rds ->
   trace (retry_loop r ctx alerts sent rds i iErr w).1 =
   trace w ++
   flat_map (fun _ => [EvTick; EvNotify (Name (integration r)) sent]) rds).
Proof.
  split; [apply retry_loop_going|apply retry_loop_going_trace].
Qed.

Lemma warnings_app (l1 l2 : list LogLine) :
  warnings (l1 ++ l2) = warnings l1 ++ warnings l2.
Proof. apply List.filter_app. Qed.

(** With a previous error that reads the same, no warning is written. *)
Lemma retry_loop_warns_nothing r (ctx : Context) (alerts sent : list AlertPtr)
      rds (i : Z) (e0 : Error) w :
  same_failure (Error_string e0) rds ->
  warnings (logs (retry_loop r ctx alerts sent rds i (Some e0) w).1) =
  warnings (logs w).
Proof.
  revert i e0 w. induction rds as [|rd rds IH]; intros i e0 w Hsame; simpl.
  - reflexivity.
  - inversion Hsame as [|? ? Hrd Hrest]; subst.
    destruct (done_at_check rd); simpl; [reflexivity|].
    destruct (done_at_wait rd && negb (tick_wins rd)); simpl; [reflexivity|].
    destruct (notify_ret rd) as [retry [e|]] eqn:Hret; simpl.
    + destruct retry; simpl; [|reflexivity].
      specialize (Hrd e eq_refl).
      rewrite Hrd, String.eqb_refl, andb_false_r.
      rewrite IH; [reflexivity|]. by rewrite Hrd.
    + rewrite warnings_app. simpl. destruct (i + 1 <=? 1); simpl;
        by rewrite app_nil_r.
Qed.

(** X18.  The warning [Notify attempt failed, will retry later] is written
    for an error only if it reads otherwise than the error before it: as
    long as the integration fails with the same message, however often, the
    loop writes the warning once at most. *)
Theorem RetryStage_warns_once r (ctx : Context) (alerts sent : list AlertPtr)
        rds (i : Z) (s : string) w :
  same_failure s rds ->
  let ws := warnings (logs (retry_loop r ctx alerts sent rds i None w).1) in
  ws = warnings (logs w) \/
  ws = warnings (logs w) ++
       [{| lvl := LvlWarn; msg := "Notify attempt failed, will retry later" |}].
Proof.
  revert i w. induction rds as [|rd rds IH]; intros i w Hsame; simpl.
  - by left.
  - inversion Hsame as [|? ? Hrd Hrest]; subst.
    destruct (done_at_check rd); simpl; [by left|].
    destruct (done_at_wait rd && negb (tick_wins rd)); simpl; [by left|].
    destruct (notify_ret rd) as [retry [e|]] eqn:Hret; simpl.
    + destruct retry; simpl; [|by left].
      specialize (Hrd e eq_refl). subst s.
      rewrite retry_loop_warns_nothing by done.
      destruct (done_at_return rd); simpl; [by left|right].
      by rewrite warnings_app.
    + left. rewrite warnings_app. simpl. destruct (i + 1 <=? 1); simpl;
        by rewrite app_nil_r.
Qed.

End RetryMore.

(** Three failures that read the same, the context alive: one warning. *)
Lemma RetryStage_warns_once_witness :
  let rds := [Sample.attempt (true, Some (New "timeout"));
              Sample.attempt (true, Some (New "timeout"));
              Sample.attempt (true, Some (New "timeout"))] in
  let ws := warnings (logs (retry_loop (Sample.retry true) Sample.ctx
                              [0%nat] [0%nat] rds 0 None Sample.fresh).1) in
  ws = warnings (logs Sample.fresh) \/
  ws = warnings (logs Sample.fresh) ++
       [{| lvl := LvlWarn; msg := "Notify attempt failed, will retry later" |}].
Proof.
  intros rds.
  apply (RetryStage_warns_once (Sample.retry true) Sample.ctx [0%nat] [0%nat]
           rds 0 "timeout" Sample.fresh).
  repeat constructor; intros e [= <-]; reflexivity.
Defined.

(** ** The pipeline of a receiver *)

Section PipelineFacts.
Context {R : Type} `{!redis.Cmdable R} `{!XXHash}.
Context {TI : Type} `{!TimeIntervalOps TI}.
Implicit Types (w : World R) (ctx : Context) (alerts : list AlertPtr)
         (r : Receiver.t) (i : Integration).

Lemma logs_only_refl w : logs_only w w.
Proof. by unfold logs_only. Qed.

Lemma logs_only_trans w1 w2 w3 :
  logs_only w1 w2 -> logs_only w2 w3 -> logs_only w1 w3.
Proof. unfold logs_only. intuition congruence. Qed.

(** The two time stages write to the log at most, and return their context
    with all of the batch or none of it. *)
Lemma TimeActiveStage_Exec_gentle (tas : timeStage TI) ctx alerts w :
  exists w' out err,
    TimeActiveStage_Exec tas ctx alerts w = Some (w', (ctx, out, err)) /\
    logs_only w w' /\ (out = alerts \/ out = []).
Proof.
  unfold TimeActiveStage_Exec.
  repeat case_match; eexists _, _, _; (split; [reflexivity|]);
    split; try (by unfold logs_only); auto.
Qed.

Lemma TimeMuteStage_Exec_gentle (tms : timeStage TI) ctx alerts w :
  exists w' out err,
    TimeMuteStage_Exec tms ctx alerts w = Some (w', (ctx, out, err)) /\
    logs_only w w' /\ (out = alerts \/ out = []).
Proof.
  unfold TimeMuteStage_Exec.
  repeat case_match; eexists _, _, _; (split; [reflexivity|]);
    split; try (by unfold logs_only); auto.
Qed.

(** The four stages before the fan-out: they return their context, write
    to the log at most, and let through only alerts of the batch that
    neither muter mutes. *)
Lemma pipeline_front (inhibitor silencer : gmap string string -> bool)
      (times : gmap string (list TI)) ctx alerts w :
  exists w' out err,
    MultiStage_Exec [MuteStage_Exec inhibitor;
                     TimeActiveStage_Exec {| Times := times |};
                     TimeMuteStage_Exec {| Times := times |};
                     MuteStage_Exec silencer] ctx alerts w =
      Some (w', (ctx, out, err)) /\
    logs_only w w' /\
    forall a, In a out ->
              In a alerts /\ not_muted w inhibitor a = true /\
              not_muted w silencer a = true.
Proof.
  destruct alerts as [|a0 alerts0].
  { eexists _, _, _. split; [reflexivity|]. split; [apply logs_only_refl|].
    intros a []. }
  rewrite MultiStage_Exec_cons. unfold MuteStage_Exec at 1.
  set (alerts := a0 :: alerts0).
  set (kept := List.filter _ alerts).
  assert (Hkept : forall a, In a kept ->
                            In a alerts /\ not_muted w inhibitor a = true).
  { intros a Ha. apply List.filter_In in Ha. exact Ha. }
  clearbody kept. clearbody alerts.
  destruct kept as [|a1 kept1].
  { eexists _, _, _. split; [reflexivity|]. split; [apply logs_only_refl|].
    intros a []. }
  rewrite MultiStage_Exec_cons.
  destruct (TimeActiveStage_Exec_gentle {| Times := times |} ctx (a1 :: kept1) w)
    as (w1 & out1 & err1 & -> & Hw1 & Hout1).
  destruct err1 as [e1|].
  { eexists _, _, _. split; [reflexivity|]. split; [exact Hw1|]. intros a []. }
  destruct Hout1 as [-> | ->]; cycle 1.
  { eexists _, _, _. split; [reflexivity|]. split; [exact Hw1|]. intros a []. }
  rewrite MultiStage_Exec_cons.
  destruct (TimeMuteStage_Exec_gentle {| Times := times |} ctx (a1 :: kept1) w1)
    as (w2 & out2 & err2 & -> & Hw2 & Hout2).
  pose proof (logs_only_trans _ _ _ Hw1 Hw2) as Hw12.
  destruct err2 as [e2|].
  { eexists _, _, _. split; [reflexivity|]. split; [exact Hw12|]. intros a []. }
  destruct Hout2 as [-> | ->]; cycle 1.
  { eexists _, _, _. split; [reflexivity|]. split; [exact Hw12|]. intros a []. }
  rewrite MultiStage_Exec_cons. unfold MuteStage_Exec.
  rewrite MultiStage_Exec_nil.
  eexists _, _, _. split; [reflexivity|]. split; [exact Hw12|].
  intros a Ha. apply List.filter_In in Ha as [Hin Hs].
  destruct (Hkept a Hin) as [Hin' Hi]. split_and!; try done.
  unfold not_muted. destruct Hw12 as (_ & <- & _). exact Hs.
Qed.

(** The pipeline is the front and then the fan-out. *)
Lemma receiverPipeline_split (inhibitor silencer : gmap string string -> bool)
      (times : gmap string (list TI)) r ctx alerts w :
  receiverPipeline inhibitor silencer times r ctx alerts w =
  match MultiStage_Exec [MuteStage_Exec inhibitor;
                         TimeActiveStage_Exec {| Times := times |};
                         TimeMuteStage_Exec {| Times := times |};
                         MuteStage_Exec silencer] ctx alerts w with
  | None => None
  | Some (w', (ctx', _, Some e)) => Some (w', (ctx', [], Some e))
  | Some (w', (ctx', alerts', None)) =>
      MultiStage_Exec [createReceiverStage r] ctx' alerts' w'
  end.
Proof.
  unfold receiverPipeline.
  exact (MultiStage_Exec_app
           [MuteStage_Exec inhibitor;
            TimeActiveStage_Exec {| Times := times |};
            TimeMuteStage_Exec {| Times := times |};
            MuteStage_Exec silencer] [createReceiverStage r] ctx alerts w).
Qed.

(** X19.  A pipeline that [PipelineBuilder.New] builds hands back the context it
    was given and no alerts, with or without an error: what the stages of
    the integrations return ends in the fan-out. *)
Theorem receiverPipeline_returns_nothing
        (inhibitor silencer : gmap string string -> bool)
        (times : gmap string (list TI)) r ctx alerts w
        (w' : World R) (ctx' : Context) (out : list AlertPtr)
        (err : option Error) :
  receiverPipeline inhibitor silencer times r ctx alerts w =
    Some (w', (ctx', out, err)) ->
  ctx' = ctx /\ out = [].
Proof.
  rewrite receiverPipeline_split.
  destruct (pipeline_front inhibitor silencer times ctx alerts w)
    as (w1 & out1 & err1 & -> & _ & _).
  destruct err1 as [e1|]; [by intros [= <- <- <- <-]|].
  destruct out1 as [|a1 out1]; [by intros [= <- <- <- <-]|].
  rewrite MultiStage_Exec_cons.
  destruct (createReceiverStage r ctx (a1 :: out1) w1)
    as [[w2 [[ctx2 out2] err2]]|] eqn:Hst; [|discriminate].
  apply FanoutStage_Exec_alerts_nil in Hst. simpl in Hst.
  injection Hst as -> ->.
  destruct err2 as [e2|]; by intros [= <- <- <- <-].
Qed.

(** X20.  When each alert of the batch is muted by the inhibitor or by the
    silencer, the pipeline returns without a command to the store and
    without a call to an integration, whatever the receiver. *)
Theorem receiverPipeline_muted
        (inhibitor silencer : gmap string string -> bool)
        (times : gmap string (list TI)) r ctx alerts w :
  (forall a, In a alerts ->
             not_muted w inhibitor a && not_muted w silencer a = false) ->
  exists w' err,
    receiverPipeline inhibitor silencer times r ctx alerts w =
      Some (w', (ctx, [], err)) /\
    logs_only w w'.
Proof.
  intros Hmuted. rewrite receiverPipeline_split.
  destruct (pipeline_front inhibitor silencer times ctx alerts w)
    as (w1 & out1 & err1 & -> & Hw1 & Hout1).
  destruct err1 as [e1|]; [by eexists _, _|].
  destruct out1 as [|a1 out1]; [by eexists _, _|].
  destruct (Hout1 a1 (or_introl eq_refl)) as (Hin & Hi & Hs).
  specialize (Hmuted a1 Hin). rewrite Hi, Hs in Hmuted. discriminate Hmuted.
Qed.

End PipelineFacts.

Section IntegrationFacts.
Context {R : Type} `{!redis.Cmdable R} `{!XXHash}.
Context {TI : Type} `{!TimeIntervalOps TI}.
Implicit Types (w : World R) (ctx : Context) (alerts : list AlertPtr)
         (r : Receiver.t) (i : Integration).

(** X21.  An integration that does not want resolved alerts ([SendResolved] is
    false) is not called for a batch in which every alert is resolved,
    whatever the store holds or answers: [DedupStage] then leaves
    [FiringAlerts] empty, and [RetryStage] returns before its loop.  The
    stages of the integration return, with no tick awaited. *)
Theorem integrationStage_resolved_only (gn : string) i ctx alerts w :
  SendResolved i = false ->
  (forall a, In a alerts -> Resolved w a = true) ->
  exists w' res,
    integrationStage gn i ctx alerts w = Some (w', res) /\
    trace w' = trace w /\ rounds w' = rounds w.
Proof.
  intros Hrs Hall. unfold integrationStage.
  set (n := NewDedupStage _).
  destruct (dedup_exec_frame n ctx alerts w)
    as (w1 & ctx1 & out & err & Hex & _ & Ht & Hr & _).
  destruct alerts as [|a1 alerts1]; [by eexists _, _|].
  rewrite MultiStage_Exec_cons, Hex.
  destruct err as [e|]; [by eexists _, _|].
  apply dedup_exec_hashes in Hex as (Hsub & _ & _ & Hempty);
    [|intros x count; apply hashAlert_SentCount].
  assert (Hf : FiringAlerts ctx1 = Some []).
  { apply Hempty. intros a Ha. apply Hall.
    apply list_elem_of_In. eapply elem_of_sublist; [|exact Hsub].
    by apply list_elem_of_In. }
  destruct out as [|b out]; [by eexists _, _|].
  rewrite MultiStage_Exec_cons.
  unfold RetryStage_Exec, RetryStage_exec, prefilter. simpl integration.
  rewrite Hrs, Hf. simpl. by eexists _, _.
Qed.

Lemma PipelineBuilder_New_fold (receivers : list Receiver.t)
      (inhibitor silencer : gmap string string -> bool)
      (times : gmap string (list TI)) (rs : gmap string (Stage R))
      (name : string) :
  fold_left
    (fun rs r =>
       <[Receiver.groupName r := receiverPipeline inhibitor silencer times r]> rs)
    receivers rs !! name =
  match last (named name receivers) with
  | Some r => Some (receiverPipeline inhibitor silencer times r)
  | None => rs !! name
  end.
Proof.
  revert rs. induction receivers as [|r receivers IH]; intros rs; simpl.
  - reflexivity.
  - rewrite IH. unfold named. simpl.
    destruct (String.eqb_spec (Receiver.groupName r) name) as [Heq|Hne].
    + rewrite last_cons.
      destruct (last (List.filter _ receivers)); [reflexivity|].
      by rewrite Heq, lookup_insert_eq.
    + destruct (last (List.filter _ receivers)); [reflexivity|].
      by rewrite lookup_insert_ne.
Qed.

(** X22.  The routing stage that [PipelineBuilder.New] returns sends a batch to
    the pipeline of the receiver that the context names; of two receivers
    of one name the later in the list is the one that counts; for a name
    that no receiver has, it returns the error [stage for receiver .. group
    .. missing] and nothing else happens. *)
Theorem PipelineBuilder_New_routes (receivers : list Receiver.t)
        (inhibitor silencer : gmap string string -> bool)
        (times : gmap string (list TI)) ctx alerts w (name : string) :
  ReceiverName ctx = Some name ->
  RoutingStage_Exec (PipelineBuilder_New receivers inhibitor silencer times)
                    ctx alerts w =
  match last (named name receivers) with
  | Some r => receiverPipeline inhibitor silencer times r ctx alerts w
  | None =>
      Some (w, (ctx, [],
                Some (New ("stage for receiver [" +:+ name +:+ "] group [" +:+
                           default EmptyString (GroupKey ctx) +:+ "] missing"))))
  end.
Proof.
  intros Hname. unfold RoutingStage_Exec, PipelineBuilder_New.
  rewrite Hname, PipelineBuilder_New_fold, lookup_empty.
  by destruct (last (named name receivers)).
Qed.

End IntegrationFacts.

(** The run of [Route.delivered] calls the webhook once, and still the
    pipeline returns no alert. *)
Lemma receiverPipeline_returns_nothing_witness :
  Route.delivered.2.1.1 = Route.to_ops /\ Route.delivered.2.1.2 = [].
Proof.
  apply (receiverPipeline_returns_nothing
           (TI := Z * Z) Route.nothing Route.nothing ∅ Route.ops Route.to_ops
           [0%nat] Route.ready Route.delivered.1 Route.delivered.2.1.1
           Route.delivered.2.1.2 Route.delivered.2.2).
  vm_compute. reflexivity.
Defined.

(** An inhibitor that mutes every alert. *)
Lemma receiverPipeline_muted_witness :
  exists w' err,
    receiverPipeline (TI := Z * Z) Route.everything Route.nothing ∅ Route.ops
                     Route.to_ops [0%nat] Route.ready =
      Some (w', (Route.to_ops, [], err)) /\
    logs_only Route.ready w'.
Proof.
  apply (receiverPipeline_muted (TI := Z * Z) Route.everything Route.nothing ∅
           Route.ops Route.to_ops [0%nat] Route.ready).
  intros a [<-|[]]. reflexivity.
Defined.

(** The resolved alert 2 and the webhook that wants no resolved alerts. *)
Lemma integrationStage_resolved_only_witness :
  exists w' res,
    integrationStage "ops" (Sample.integration false) Sample.ctx [2%nat]
                     Route.ready = Some (w', res) /\
    trace w' = trace Route.ready /\ rounds w' = rounds Route.ready.
Proof.
  apply (integrationStage_resolved_only "ops" (Sample.integration false)
           Sample.ctx [2%nat] Route.ready).
  - reflexivity.
  - intros a [<-|[]]. reflexivity.
Defined.

(** Of the two receivers [ops] the second, without integrations, is the one
    that the routing stage runs. *)
Lemma PipelineBuilder_New_routes_witness :
  RoutingStage_Exec
    (PipelineBuilder_New (TI := Z * Z) [Route.ops; Route.bare]
                         Route.nothing Route.nothing ∅)
    Route.to_ops [0%nat] Route.ready =
  receiverPipeline (TI := Z * Z) Route.nothing Route.nothing ∅ Route.bare
                   Route.to_ops [0%nat] Route.ready.
Proof.
  apply (PipelineBuilder_New_routes (TI := Z * Z) [Route.ops; Route.bare]
           Route.nothing Route.nothing ∅ Route.to_ops [0%nat] Route.ready "ops").
  reflexivity.
Defined.

(** ** ClearSKeyStage *)

Lemma clear_stateKeys_fold (gkey : string) (recv : nflogpb.Receiver)
      (hashes : list N) (acc : list string) :
  fold_left
    (fun stateKeys hash =>
       let sKey := stateKey gkey recv hash in
       stateKeys ++ [sKey; AlertSentPrefix +:+ sKey])
    hashes acc =
  acc ++ flat_map (fun hash => [stateKey gkey recv hash;
                                AlertSentPrefix +:+ stateKey gkey recv hash])
                  hashes.
Proof.
  revert acc. induction hashes as [|h hashes IH]; intros acc; simpl.
  - by rewrite app_nil_r.
  - rewrite IH, <- app_assoc. reflexivity.
Qed.

(** X23.  The keys that [ClearSKeyStage.Exec] sends with [SAdd], [Del] and [SRem]
    for [n] hashes are [n] empty strings (the slice is made with length [n]
    and then appended to), and after them the state key and the counter key
    of each hash: [3 * n] members, of which the first [n] name no key of an
    alert. *)
Theorem ClearSKeyStage_stateKeys (gkey : string) (recv : nflogpb.Receiver)
        (hashes : list N) :
  clear_stateKeys gkey recv hashes =
    replicate (length hashes) EmptyString ++
    flat_map (fun hash => [stateKey gkey recv hash;
                           AlertSentPrefix +:+ stateKey gkey recv hash])
             hashes /\
  length (clear_stateKeys gkey recv hashes) = (3 * length hashes)%nat /\
  forall k, (k < length hashes)%nat ->
            clear_stateKeys gkey recv hashes !! k = Some EmptyString.
Proof.
  unfold clear_stateKeys. rewrite clear_stateKeys_fold. split; [reflexivity|].
  split.
  - rewrite length_app, length_replicate.
    induction hashes as [|h hashes IH]; simpl; lia.
  - intros k Hk. rewrite lookup_app_l by (rewrite length_replicate; lia).
    by apply lookup_replicate_2.
Qed.

Section ClearFacts.
Context {R : Type} `{!redis.Cmdable R} `{!SetCmdable R}.

(** X24.  [ClearSKeyStage.Exec] fails only for a context without [GroupKey]; an
    error of [SAdd], [Del] or [SRem] is logged and the stage goes on, and it
    returns its context and its batch as they were.  It touches the store
    and the log at most; with no [RuleUID] in the context, or with neither
    firing nor resolved hashes there, it does nothing. *)
Theorem ClearSKeyStage_Exec_passes (n : ClearSKeyStage) (ctx : Context)
        (alerts : list AlertPtr) (w : World R) :
  exists w',
    ClearSKeyStage_Exec n ctx alerts w =
      Some (w', (ctx,
                 match GroupKey ctx with Some _ => alerts | None => [] end,
                 match GroupKey ctx with
                 | Some _ => None
                 | None => Some (New "group key missing")
                 end)) /\
    heap w' = heap w /\ clock w' = clock w /\ trace w' = trace w /\
    rounds w' = rounds w /\
    (GroupKey ctx = None \/ RuleUID ctx = None \/
     (default [] (FiringAlerts ctx) = [] /\
      default [] (ResolvedAlerts ctx) = []) ->
     w' = w).
Proof.
  unfold ClearSKeyStage_Exec.
  destruct (GroupKey ctx) as [gkey|]; [|by eexists].
  destruct (RuleUID ctx) as [ruleUID|]; [|by eexists].
  eexists. split; [reflexivity|].
  unfold clear_resolved, clear_firing.
  destruct (FiringAlerts ctx) as [[|f firing]|];
    destruct (ResolvedAlerts ctx) as [[|g resolved]|]; simpl;
    repeat case_match; simpl; split_and!; try done;
    intros [?|[?|[? ?]]]; done.
Qed.

End ClearFacts.
